(** * Compressed Shell MCP server: permission resolution, execution and
      compression orchestration

    A shallow embedding of [lib/permissions.js], [lib/execution.js],
    [lib/compression.js], [lib/constants.js] and of the three tool handlers
    ([tools/shell.js], [tools/allow-once.js], [tools/allow-command.js]),
    followed by the properties of the specification stated over it.

    Conventions of the embedding.
    - A JavaScript string is the list of its UTF-16 code units ([str]).
    - A persisted file is absent, holds text that [JSON.parse] rejects, or
      holds the serialisation of a JSON value; [JSON.parse] and
      [JSON.stringify] are read as inverse to each other on JSON values.
    - The modules are ES modules, hence strict-mode code: assigning a
      property of a primitive value raises a [TypeError].
    - [debugLog] only appends to a separate debug file and is left out; file
      writes are taken to succeed. *)

From Stdlib Require Import ZArith NArith Ascii String.
From stdpp Require Import base list gmap pretty.

Local Open Scope N_scope.

(** ** Strings as code units *)

Definition str : Type := list N.

(** Code units of an ASCII literal of the source. *)
Definition u (s : string) : str := N_of_ascii <$> list_ascii_of_string s.

(** The characters matched by the regular-expression class [\s] and stripped
    by [String.prototype.trim]: WhiteSpace and LineTerminator of ECMAScript. *)
Definition is_space (c : N) : bool :=
  ((9 <=? c) && (c <=? 13)) || (c =? 32) || (c =? 160) || (c =? 5760)
  || ((8192 <=? c) && (c <=? 8202)) || (c =? 8232) || (c =? 8233)
  || (c =? 8239) || (c =? 8287) || (c =? 12288) || (c =? 65279).

(** The characters the regular-expression atom [.] does not match. *)
Definition is_line_terminator (c : N) : bool :=
  (c =? 10) || (c =? 13) || (c =? 8232) || (c =? 8233).

Fixpoint drop_spaces (s : str) : str :=
  match s with
  | c :: s' => if is_space c then drop_spaces s' else s
  | [] => []
  end.

(** [String.prototype.trim] *)
Definition trim (s : str) : str :=
  reverse (drop_spaces (reverse (drop_spaces s))).

(** [s.split(/\s+/)]: the pieces between maximal runs of white space.  The
    flag records that the previous code unit belonged to a separator. *)
Fixpoint split_ws_from (in_ws : bool) (s : str) : list str :=
  match s with
  | [] => [[]]
  | c :: s' =>
      if is_space c then
        if in_ws then split_ws_from true s' else [] :: split_ws_from true s'
      else
        match split_ws_from false s' with
        | w :: ws => (c :: w) :: ws
        | [] => [[c]]
        end
  end.

Definition split_ws (s : str) : list str := split_ws_from false s.

(** [a.startsWith(b)] *)
Fixpoint startsWith (a b : str) {struct b} : bool :=
  match b, a with
  | [], _ => true
  | y :: b', x :: a' => (x =? y) && startsWith a' b'
  | _ :: _, [] => false
  end.

(** [a === b] on strings *)
Definition str_eqb (a b : str) : bool := bool_decide (a = b).

(** [s.includes(t)] and [s.indexOf(t) !== -1] on strings *)
Fixpoint str_includes (s t : str) : bool :=
  startsWith s t ||
  match s with
  | [] => false
  | _ :: s' => str_includes s' t
  end.

(** [command.trim().split(/\s+/)] *)
Definition words (command : str) : list str := split_ws (trim command).

(** [words[0]]: the array returned by [split] is never empty. *)
Definition word0 (ws : list str) : str := default [] (head ws).


(** ** lib/constants.js *)

Definition MIN_LINES : nat := 30.

Definition SAFE_COMMANDS : list str := u <$>
  [ "cd"; "ls"; "pwd"; "tree"; "find"; "locate"; "which"; "whereis"; "type";
    "cat"; "head"; "tail"; "less"; "more"; "file"; "stat"; "wc"; "diff";
    "grep"; "egrep"; "fgrep"; "rg"; "ag"; "awk"; "sed"; "sort"; "uniq"; "cut";
    "tr"; "whoami"; "hostname"; "uname"; "date"; "uptime"; "env"; "printenv";
    "id"; "git status"; "git log"; "git branch"; "git diff"; "git show";
    "git remote"; "git config --get"; "git config --list"; "git rev-parse";
    "git describe"; "ps"; "top"; "htop"; "df"; "du"; "free"; "lsof"; "ping";
    "curl"; "wget"; "nslookup"; "dig"; "host"; "node --version";
    "npm --version"; "pnpm --version"; "yarn --version"; "python --version";
    "python3 --version"; "pip --version"; "go version"; "rustc --version";
    "cargo --version"; "java -version"; "javac -version" ]%string.

Definition VERBOSE_COMMANDS : list str := u <$>
  [ "npm"; "yarn"; "pnpm"; "pip"; "apt"; "apt-get"; "brew"; "docker";
    "docker-compose"; "make"; "cargo"; "tsc"; "webpack"; "vite"; "eslint";
    "prettier"; "npx" ]%string.

(** ** lib/permissions.js: the pure classifiers *)

Definition isSafeCommand (command : str) : bool :=
  let firstWord := word0 (words command) in
  existsb (fun safe =>
             str_eqb command safe || startsWith command (safe ++ u " ")
             || str_eqb firstWord safe)
          SAFE_COMMANDS.

(** Number of leading white-space code units: what a greedy [\s*] consumes. *)
Fixpoint count_spaces (s : str) : nat :=
  match s with
  | c :: s' => if is_space c then S (count_spaces s') else O
  | [] => O
  end.

(** The alternation [(?:&&|\|\||;|\|)] tried at the head of [s]. *)
Definition operator_length (s : str) : option nat :=
  match s with
  | 38 :: 38 :: _ => Some 2%nat
  | 124 :: 124 :: _ => Some 2%nat
  | 59 :: _ => Some 1%nat
  | 124 :: _ => Some 1%nat
  | _ => None
  end.

(** Length of the match of [/\s*(?:&&|\|\||;|\|)\s*/] anchored at the head of
    [s], if there is one.  No operator starts with white space, so giving
    back part of the first [\s*] never helps. *)
Definition match_separator (s : str) : option nat :=
  let a := count_spaces s in
  match operator_length (drop a s) with
  | Some k => Some (a + k + count_spaces (drop (a + k) s))%nat
  | None => None
  end.

(** [command.split(/\s*(?:&&|\|\||;|\|)\s*/)]: the separator is searched
    from left to right; [skip] counts the code units of the current match
    that are still to be passed over. *)
Fixpoint split_ops_from (skip : nat) (s : str) : list str :=
  match s with
  | [] => [[]]
  | c :: s' =>
      match skip with
      | S k => split_ops_from k s'
      | O =>
          match match_separator s with
          | Some n => [] :: split_ops_from (pred n) s'
          | None =>
              match split_ops_from O s' with
              | seg :: segs => (c :: seg) :: segs
              | [] => [[c]]
              end
          end
      end
  end.

Definition split_ops (command : str) : list str := split_ops_from O command.

Definition isVerboseCommand (command : str) : bool :=
  existsb (fun cmd =>
             let firstWord := word0 (words cmd) in
             existsb (fun vc =>
                        str_eqb firstWord vc || startsWith firstWord (vc ++ u "-"))
                     VERBOSE_COMMANDS)
          (split_ops command).

Definition getCommandPrefix (command : str) : str :=
  let ws := words command in
  match ws with
  | w0 :: w1 :: _ => w0 ++ u " " ++ w1
  | _ => word0 ws
  end.

(** ** JSON values and the fragment of JavaScript the stores go through *)

#[local] Set Warnings "-register-all".

Inductive json : Type :=
  | JNull
  | JBool (b : bool)
  | JNum (z : Z)
  | JStr (s : str)
  | JArr (items : list json)
  | JObj (members : list (str * json)).

(** A JavaScript value read from a store: [None] is [undefined]. *)
Definition value : Type := option json.

(** Completion of an expression: a value, or a raised [TypeError]. *)
Inductive js (A : Type) : Type :=
  | Ret (a : A)
  | Throws.
Arguments Ret {A} a.
Arguments Throws {A}.

(** ToBoolean *)
Definition truthy (v : value) : bool :=
  match v with
  | None | Some JNull => false
  | Some (JBool b) => b
  | Some (JNum z) => negb (z =? 0)%Z
  | Some (JStr s) => negb (str_eqb s [])
  | Some (JArr _) | Some (JObj _) => true
  end.

(** Own property of a parsed object (its keys are pairwise distinct). *)
Fixpoint assoc (k : str) (members : list (str * json)) : value :=
  match members with
  | [] => None
  | (k', v) :: rest => if str_eqb k' k then Some v else assoc k rest
  end.

(** [obj[k] = v] on an object: the member is replaced in place, or added
    after the existing ones. *)
Fixpoint set_key (k : str) (v : json) (members : list (str * json))
  : list (str * json) :=
  match members with
  | [] => [(k, v)]
  | (k', v') :: rest =>
      if str_eqb k' k then (k, v) :: rest else (k', v') :: set_key k v rest
  end.

(** [v.k] for the member names the stores use ([commands], [permissions],
    [allow]), none of which is a built-in property of a string, a number, a
    boolean or an array. *)
Definition prop (v : value) (k : str) : js value :=
  match v with
  | None | Some JNull => Throws
  | Some (JObj members) => Ret (assoc k members)
  | Some _ => Ret None
  end.

(** [v?.k] *)
Definition opt_prop (v : value) (k : str) : value :=
  match v with
  | Some (JObj members) => assoc k members
  | _ => None
  end.

(** [x === command] for a string [command] *)
Definition is_string (command : str) (x : json) : bool :=
  match x with
  | JStr s => str_eqb s command
  | _ => false
  end.

(** [Array.prototype.indexOf] with a string argument; [None] is [-1]. *)
Fixpoint indexOf (command : str) (items : list json) : option nat :=
  match items with
  | [] => None
  | x :: rest => if is_string command x then Some O else S <$> indexOf command rest
  end.

(** [Array.prototype.includes] with a string argument *)
Definition includes (command : str) (items : list json) : bool :=
  existsb (is_string command) items.

(** ** Persisted files and the environment *)

Inductive file : Type :=
  | Absent
  | Unparseable (text : str)
  | Parsed (data : json).

(** The two stores.  [once_store] is the content of [ALLOW_ONCE_FILE];
    [settings_store] holds the settings files, each under the name of the
    file itself (see [settings_path] below), so that two spellings of one
    project directory read and write one entry. *)
Record disk : Type := Disk {
  once_store : file;
  settings_store : gmap str file;
}.

Definition read_settings (m : gmap str file) (settingsFile : str) : file :=
  default Absent (m !! settingsFile).

(** Events of the child process, in the order the handlers see them. *)
Inductive proc_event : Type :=
  | StdoutData (data : str)
  | StderrData (data : str)
  | Close (code : option Z)
  | Error (message : str).

(** What [spawn] does: it raises synchronously (an argument it refuses,
    such as a string with a NUL code unit, or an error of the system call
    that is not reported through the child), or it returns a child process
    whose events follow. *)
Inductive spawn_outcome : Type :=
  | SpawnRaises (message : str)
  | Child (events : list proc_event).

(** State of a promise when nothing more happens. *)
Inductive promise (A : Type) : Type :=
  | Resolved (a : A)
  | Rejected (message : str)
  | Pending.
Arguments Resolved {A} a.
Arguments Rejected {A} message.
Arguments Pending {A}.

(** Outcome of the [execSync] call that pipes the prompt to the CLI: what it
    printed, or the message of the error it raised (non-zero exit, time-out
    after [TIMEOUT_SECONDS], prompt file not writable, ...). *)
Inductive oracle_reply : Type :=
  | Printed (output : str)
  | Failed (message : str).

(** What the handlers read from their surroundings. *)
Record world : Type := World {
  process_cwd : str;                       (* process.cwd() *)
  tmpdir : str;                            (* os.tmpdir() *)
  run : str -> str -> spawn_outcome;       (* bash -c command, in a directory *)
  settings_path : str -> str;              (* the file that
                                              join(projectDir, ".claude",
                                              "settings.local.json") names,
                                              normalised and resolved *)
  elapsed_ms : Z;                          (* Date.now() - startTime *)
  toFixed2 : Z -> str;                     (* (ms / 1000).toFixed(2) *)
  iso_now : str;                           (* new Date().toISOString() *)
  oracle : str -> oracle_reply;            (* the CLI, given the prompt *)
}.

(** [cwd || process.cwd()] *)
Definition projectDir (w : world) (cwd : option str) : str :=
  match cwd with
  | Some dir => if str_eqb dir [] then process_cwd w else dir
  | None => process_cwd w
  end.

(** The settings file of the project of a request. *)
Definition settingsFile (w : world) (cwd : option str) : str :=
  settings_path w (projectDir w cwd).

(** ** lib/permissions.js: the one-time store *)

(** [isAllowedOnce(command)] on the content of [ALLOW_ONCE_FILE]: the
    answer and the content afterwards. *)
Definition isAllowedOnce (command : str) (f : file) : bool * file :=
  match f with
  | Absent => (false, f)
  | Unparseable _ => (false, f)
  | Parsed data =>
      match prop (Some data) (u "commands") with
      | Throws => (false, f)
      | Ret c =>
          let commands := if truthy c then c else Some (JArr []) in
          match commands with
          | Some (JArr items) =>
              match indexOf command items with
              | Some index =>
                  (true, Parsed (JObj [(u "commands", JArr (delete index items))]))
              | None => (false, f)
              end
          | Some (JStr s) =>
              (* String.prototype.indexOf answers; on a hit [splice] is not a
                 function and the TypeError is caught *)
              if str_includes s command then (false, f) else (false, f)
          | _ =>
              (* [indexOf] is not a function: TypeError, caught *)
              (false, f)
          end
      end
  end.

(** [addAllowOnce(command)]: the content afterwards, or the TypeError that
    escapes (the second half of the function is outside the [try]). *)
Definition addAllowOnce (command : str) (f : file) : js file :=
  match f with
  | Absent | Unparseable _ =>
      Ret (Parsed (JObj [(u "commands", JArr [JStr command])]))
  | Parsed data =>
      match data with
      | JNull => Throws
      | JBool _ | JNum _ | JStr _ =>
          (* [data.commands = []] raises on a primitive and is caught; then
             [data.commands] is undefined *)
          Throws
      | JArr items =>
          (* the property lands on the array object and JSON.stringify
             leaves it out: the file is rewritten with the same array *)
          Ret (Parsed (JArr items))
      | JObj members =>
          let members' :=
            if truthy (assoc (u "commands") members) then members
            else set_key (u "commands") (JArr []) members in
          match assoc (u "commands") members' with
          | Some (JArr items) =>
              if includes command items then Ret f
              else Ret (Parsed (JObj (set_key (u "commands")
                                        (JArr (items ++ [JStr command])) members')))
          | Some (JStr s) =>
              if str_includes s command then Ret f else Throws
          | _ => Throws
          end
      end
  end.

(** ** lib/permissions.js: the durable rule store *)

Definition TOOL_RULE : str := u "mcp__compressed-shell__shell(command:".

(** The template literal of the exact-command rule: the tool name, then
    the command between [(command:] and a closing parenthesis. *)
Definition exact_rule (command : str) : str := TOOL_RULE ++ command ++ u ")".

(** The template literal of a prefix rule: as above with a space and a
    star after the prefix. *)
Definition prefix_rule (prefix : str) : str := TOOL_RULE ++ prefix ++ u " *)".

(** The lazy group [(.+?)] followed by [:\*\)$]: one more code unit is taken
    into the group, then the rest of the pattern is tried on what is left. *)
Fixpoint bash_group (taken rest : str) : option str :=
  match rest with
  | [] => None
  | c :: rest' =>
      if is_line_terminator c then None
      else if str_eqb rest' (u ":*)") then Some (taken ++ [c])
      else bash_group (taken ++ [c]) rest'
  end.

(** [rule.match(/^Bash\((.+?):\*\)$/)], giving the captured group. *)
Definition bash_match (rule : str) : option str :=
  if startsWith rule (u "Bash(") then bash_group [] (drop 5 rule) else None.

(** The body of the loop over [allowList]; a rule that is not a string
    fails the three comparisons and then has no [match] method: the
    TypeError is caught and the function answers [false]. *)
Fixpoint scan_rules (command : str) (rules : list json) : bool :=
  match rules with
  | [] => false
  | JStr rule :: rest =>
      if str_eqb rule (exact_rule command) then true
      else if str_eqb rule (prefix_rule (getCommandPrefix command)) then true
      else if str_eqb rule (prefix_rule (word0 (words command))) then true
      else
        match bash_match rule with
        | Some bashPrefix =>
            if str_eqb command bashPrefix || startsWith command (bashPrefix ++ u " ")
            then true else scan_rules command rest
        | None => scan_rules command rest
        end
  | _ :: _ => false
  end.

(** Iterating a string yields its code points: a surrogate pair stays in one
    piece. *)
Fixpoint code_points (s : str) : list str :=
  match s with
  | [] => []
  | c :: s' =>
      match s' with
      | d :: s'' =>
          if (55296 <=? c) && (c <=? 56319) && (56320 <=? d) && (d <=? 57343)
          then
            match code_points s' with
            | _ :: ps => [c; d] :: ps
            | [] => [[c; d]]
            end
          else [c] :: code_points s'
      | [] => [[c]]
      end
  end.

Inductive grant : Type :=
  | Added
  | AlreadyExists.

(** [isCommandAllowed(command, cwd)] *)
Definition isCommandAllowed (w : world) (command : str) (cwd : option str)
    (m : gmap str file) : bool :=
  match read_settings m (settingsFile w cwd) with
  | Absent => false
  | Unparseable _ => false
  | Parsed settings =>
      let allow := opt_prop (opt_prop (Some settings) (u "permissions")) (u "allow") in
      let allowList := if truthy allow then allow else Some (JArr []) in
      match allowList with
      | Some (JArr rules) => scan_rules command rules
      | Some (JStr s) => scan_rules command (JStr <$> code_points s)
      | _ =>
          (* not iterable: TypeError, caught *)
          false
      end
  end.

(** [addToProjectSettings(commandPrefix, cwd)]: what is reported and the
    settings files afterwards, or the escaping TypeError. *)
Definition addToProjectSettings (w : world) (commandPrefix : str)
    (cwd : option str) (m : gmap str file) : js (grant * gmap str file) :=
  let dir := settingsFile w cwd in
  let permission := prefix_rule commandPrefix in
  match read_settings m dir with
  | Absent | Unparseable _ =>
      Ret (Added,
           <[dir := Parsed (JObj [(u "permissions",
                                   JObj [(u "allow", JArr [JStr permission])])])]> m)
  | Parsed settings =>
      match settings with
      | JNull | JBool _ | JNum _ | JStr _ => Throws
      | JArr _ =>
          (* [permissions] becomes a property of the array object, which
             JSON.stringify leaves out: the same array is written back *)
          Ret (Added, <[dir := Parsed settings]> m)
      | JObj members =>
          let members' :=
            if truthy (assoc (u "permissions") members) then members
            else set_key (u "permissions") (JObj [(u "allow", JArr [])]) members in
          match assoc (u "permissions") members' with
          | Some (JObj perms) =>
              let perms' :=
                if truthy (assoc (u "allow") perms) then perms
                else set_key (u "allow") (JArr []) perms in
              match assoc (u "allow") perms' with
              | Some (JArr rules) =>
                  if includes permission rules then Ret (AlreadyExists, m)
                  else
                    Ret (Added,
                         <[dir := Parsed (JObj (set_key (u "permissions")
                                            (JObj (set_key (u "allow")
                                                     (JArr (rules ++ [JStr permission]))
                                                     perms'))
                                            members'))]> m)
              | Some (JStr s) =>
                  if str_includes s permission then Ret (AlreadyExists, m) else Throws
              | _ => Throws
              end
          | Some (JArr _) =>
              (* [allow] becomes a property of the array object, the rule is
                 pushed into it, and JSON.stringify leaves it out *)
              Ret (Added, <[dir := Parsed settings]> m)
          | _ =>
              (* a truthy primitive: the assignment raises and is caught,
                 then [undefined.includes] raises *)
              Throws
          end
      end
  end.

(** ** lib/execution.js *)

Record ExecutionResult : Type := ExecResult {
  exitCode : Z;
  stdout : str;
  stderr : str;
  duration : str;
}.

(** The listeners of [executeCommand]: the promise is resolved by the first
    [close] or [error] event; until then the two [data] listeners
    accumulate.  [None]: no such event arrives. *)
Fixpoint settle (w : world) (events : list proc_event) (out err : str)
  : option ExecutionResult :=
  match events with
  | [] => None
  | StdoutData data :: rest => settle w rest (out ++ data) err
  | StderrData data :: rest => settle w rest out (err ++ data)
  | Close code :: _ =>
      Some {| exitCode := default 0%Z code;       (* code ?? 0 *)
              stdout := out;
              stderr := err;
              duration := toFixed2 w (elapsed_ms w) |}
  | Error message :: _ =>
      Some {| exitCode := 1;
              stdout := [];
              stderr := message;
              duration := toFixed2 w (elapsed_ms w) |}
  end.

(** [executeCommand(command, cwd)]: [spawn] is called inside the executor
    of the promise with no [try] around it, so what it raises rejects the
    promise; with a child, the listeners decide. *)
Definition executeCommand (w : world) (command : str) (cwd : option str)
  : promise ExecutionResult :=
  match run w command (projectDir w cwd) with
  | SpawnRaises message => Rejected message
  | Child events =>
      match settle w events [] [] with
      | Some result => Resolved result
      | None => Pending
      end
  end.

(** ** lib/compression.js *)

Definition nl : str := [10].

(** [s.split("\n")] *)
Fixpoint split_nl (s : str) : list str :=
  match s with
  | [] => [[]]
  | c :: s' =>
      if c =? 10 then [] :: split_nl s'
      else
        match split_nl s' with
        | l :: ls => (c :: l) :: ls
        | [] => [[c]]
        end
  end.

Definition show_nat (n : nat) : str := u (pretty n).
Definition show_Z (z : Z) : str := u (pretty z).

Definition PROMPT_HEAD : str := u
"You are a terminal output compressor for an AI coding agent. Reduce verbose output while preserving critical information.

COMMAND: ".

Definition PROMPT_RULES : str := u
"

ALWAYS PRESERVE:
- ALL errors and warnings (error, ERR, warn, fail, FATAL)
- Exit code and final status
- File paths created/modified/deleted
- Counts (X packages installed, Y files compiled)
- Timing info (took Xs, duration)
- Version numbers

REMOVE:
- Progress bars/spinners
- Download speeds/percentages
- Repeated similar lines (show count instead)
- Verbose file listings
- ASCII art
- Redundant info logs

FORMAT: Bullet points, max 15 lines, start with SUCCESS/FAILED/WARNING

Compress this output:

".

Definition build_prompt (output command : str) (code : Z) : str :=
  PROMPT_HEAD ++ command ++ nl
  ++ u "EXIT CODE: " ++ show_Z code ++ nl
  ++ u "ORIGINAL LINES: " ++ show_nat (length (split_nl output))
  ++ PROMPT_RULES ++ output.

(** [compressWithHaiku(output, command, exitCode)]: the trimmed text on the
    left, the [error] member of the returned object on the right. *)
Definition compressWithHaiku (w : world) (output command : str) (code : Z)
  : str + str :=
  match oracle w (build_prompt output command code) with
  | Printed result => inl (trim result)
  | Failed message => inr message
  end.

(** ** tools/shell.js *)

Record response : Type := Response {
  text : str;
  isError : bool;        (* a missing member reads as false *)
}.

(** What a request did besides touching the two stores. *)
Inductive effect : Type :=
  | Spawned (command dir : str)
  | WroteLog (path content : str)
  | AskedOracle (prompt : str).

Record outcome : Type := Outcome {
  reply : response;
  after : disk;
  trace : list effect;
}.

Record shell_args : Type := ShellArgs {
  command : str;
  cwd : option str;
  compress : value;
}.

Definition dq : str := [34].

Definition denial_text (command : str) : str :=
  let subcommandPrefix := getCommandPrefix command in
  u "Command not allowed: " ++ dq ++ command ++ dq ++ nl ++ nl
  ++ u "Ask the user if they want to allow this command. DEFAULT to "
  ++ dq ++ u "once" ++ dq ++ u " unless user explicitly says "
  ++ dq ++ u "always" ++ dq ++ u "." ++ nl ++ nl
  ++ u "To allow ONCE (recommended):" ++ nl
  ++ u "  allow_once(command: " ++ dq ++ command ++ dq ++ u ")" ++ nl ++ nl
  ++ u "To allow ALWAYS (will permanently allow ALL " ++ dq ++ subcommandPrefix
  ++ dq ++ u " commands in this project):" ++ nl
  ++ u "  allow_command(command_prefix: " ++ dq ++ subcommandPrefix ++ dq ++ u ")"
  ++ nl ++ nl
  ++ u "Then retry the original command.".

Inductive decision : Type :=
  | Allow
  | Deny.

(** The permission check at the head of [handleShellTool]: the three
    classifiers are all evaluated, in this order, before the test. *)
Definition checkPermission (w : world) (command : str) (cwd : option str)
    (d : disk) : decision * disk :=
  let safe := isSafeCommand command in
  let '(allowedOnce, once') := isAllowedOnce command (once_store d) in
  let allowedAlways := isCommandAllowed w command cwd (settings_store d) in
  let d' := {| once_store := once'; settings_store := settings_store d |} in
  if negb safe && negb allowedOnce && negb allowedAlways then (Deny, d')
  else (Allow, d').

(** [join(a, b)] for two segments that need no normalisation *)
Definition join (a b : str) : str := a ++ u "/" ++ b.

Definition LOG_DIR (w : world) : str := join (tmpdir w) (u "compressed-shell-logs").

(** [new Date().toISOString().replace(/[:.]/g, "-")] *)
Definition timestamp (w : world) : str :=
  (fun c => if (c =? 58) || (c =? 46) then 45 else c) <$> iso_now w.

(** [compress === b] *)
Definition is_bool (b : bool) (v : value) : bool :=
  match v with
  | Some (JBool b') => Bool.eqb b b'
  | _ => false
  end.

Definition fullOutput_of (result : ExecutionResult) : str :=
  stdout result
  ++ (if str_eqb (stderr result) [] then [] else nl ++ stderr result).

Definition shouldCompress (compress : value) (command : str) (lineCount : nat) : bool :=
  is_bool true compress
  || (negb (is_bool false compress) && isVerboseCommand command
      && (MIN_LINES <=? lineCount)%nat).

Definition success_text (lineCount : nat) (result : ExecutionResult)
    (logFile compressed : str) : str :=
  u "[Compressed from " ++ show_nat lineCount ++ u " lines | Exit: "
  ++ show_Z (exitCode result) ++ u " | Duration: " ++ duration result ++ u "s]"
  ++ nl ++ u "[Full output: " ++ logFile ++ u "]" ++ nl ++ nl ++ compressed.

Definition failure_text (error logFile fullOutput : str) : str :=
  u "[Compression failed: " ++ error ++ u "]" ++ nl
  ++ u "[Full output: " ++ logFile ++ u "]" ++ nl ++ nl ++ fullOutput.

(** The three-way test on what [compressWithHaiku] returned. *)
Definition finalOutput_of (lineCount : nat) (result : ExecutionResult)
    (logFile fullOutput : str) (compressed : str + str) : str :=
  match compressed with
  | inl s =>
      if (10 <? length s)%nat then success_text lineCount result logFile s
      else fullOutput                       (* a short string has no [error] *)
  | inr error =>
      if negb (str_eqb error []) then failure_text error logFile fullOutput
      else fullOutput
  end.

(** The stores once [handleShellTool] has run its permission check, whether
    or not the call settles afterwards: nothing later in the handler writes
    to them. *)
Definition stores_after_shell (w : world) (args : shell_args) (d : disk) : disk :=
  snd (checkPermission w (command args) (cwd args) d).

(** [handleShellTool(args)]: the execution is awaited with no [try]
    around it, so the handler stays pending or is rejected with it (the
    stores are then [stores_after_shell]). *)
Definition handleShellTool (w : world) (args : shell_args) (d : disk)
  : promise outcome :=
  let '(verdict, d') := checkPermission w (command args) (cwd args) d in
  match verdict with
  | Deny =>
      Resolved {| reply := {| text := denial_text (command args); isError := true |};
                  after := d';
                  trace := [] |}
  | Allow =>
      match executeCommand w (command args) (cwd args) with
      | Pending => Pending
      | Rejected message => Rejected message
      | Resolved result =>
          let spawned := Spawned (command args) (projectDir w (cwd args)) in
          let fullOutput := fullOutput_of result in
          let lineCount := length (split_nl fullOutput) in
          if shouldCompress (compress args) (command args) lineCount then
            let logFile := join (LOG_DIR w) (timestamp w ++ u ".log") in
            let compressed :=
              compressWithHaiku w fullOutput (command args) (exitCode result) in
            Resolved
              {| reply :=
                   {| text := finalOutput_of lineCount result logFile
                                fullOutput compressed;
                      isError := negb (exitCode result =? 0)%Z |};
                 after := d';
                 trace := [spawned; WroteLog logFile fullOutput;
                           AskedOracle (build_prompt fullOutput (command args)
                                          (exitCode result))] |}
          else
            Resolved
              {| reply := {| text := fullOutput;
                             isError := negb (exitCode result =? 0)%Z |};
                 after := d';
                 trace := [spawned] |}
      end
  end.

(** ** tools/allow-once.js and tools/allow-command.js *)

(** [!s || s.trim() === ""] *)
Definition is_blank (s : str) : bool := str_eqb s [] || str_eqb (trim s) [].

Definition handleAllowOnceTool (command : str) (d : disk) : js (response * disk) :=
  if is_blank command then
    Ret ({| text := u "Error: command is required"; isError := true |}, d)
  else
    match addAllowOnce (trim command) (once_store d) with
    | Throws => Throws
    | Ret once' =>
        Ret ({| text := u "Allowed once: " ++ dq ++ command ++ dq ++ nl ++ nl
                        ++ u "You can now retry the command. This permission will be consumed after execution.";
                isError := false |},
             {| once_store := once'; settings_store := settings_store d |})
    end.

Definition handleAllowCommandTool (w : world) (command_prefix : str)
    (cwd : option str) (d : disk) : js (response * disk) :=
  if is_blank command_prefix then
    Ret ({| text := u "Error: command_prefix is required"; isError := true |}, d)
  else
    match addToProjectSettings w (trim command_prefix) cwd (settings_store d) with
    | Throws => Throws
    | Ret (AlreadyExists, m) =>
        Ret ({| text := u "Permission already exists: "
                        ++ prefix_rule (trim command_prefix);
                isError := false |},
             {| once_store := once_store d; settings_store := m |})
    | Ret (Added, m) =>
        Ret ({| text := u "PERMANENTLY ALLOWED: " ++ prefix_rule (trim command_prefix)
                        ++ nl ++ nl ++ u "All " ++ dq ++ command_prefix ++ dq
                        ++ u " commands are now allowed in this project." ++ nl
                        ++ u "You can now retry the command.";
                isError := false |},
             {| once_store := once_store d; settings_store := m |})
    end.

(** ** Vocabulary of the properties *)

(** A [data] event, as opposed to the two events that settle the promise. *)
Definition is_data (e : proc_event) : Prop :=
  match e with
  | StdoutData _ | StderrData _ => True
  | Close _ | Error _ => False
  end.

(** A command matches the safe catalog: it equals an entry, is an entry
    followed by a space and trailing arguments, or has an entry as its
    first token. *)
Definition matches_safe_catalog (command : str) : Prop :=
  exists entry,
    entry ∈ SAFE_COMMANDS
    /\ (command = entry
        \/ (exists rest, command = entry ++ u " " ++ rest)
        \/ word0 (words command) = entry).



(** ** The compression decision in the words of the specification

    These definitions follow the sentence of the specification and use
    neither the regular expressions of the code nor its splits; the
    properties compare them with what the code computes. *)

(** The one-character operators: sequencing [;] and the pipe [|]. *)
Definition is_operator1 (c : N) : bool := (c =? 59) || (c =? 124).

(** The two-character operators: conjunction [&&] and disjunction [||]. *)
Definition is_operator2 (c1 c2 : N) : bool :=
  ((c1 =? 38) && (c2 =? 38)) || ((c1 =? 124) && (c2 =? 124)).

Definition spec_extend (c : N) (segments : list str) : list str :=
  match segments with
  | segment :: rest => (c :: segment) :: rest
  | [] => [[c]]
  end.

(** The segments of a command: the text between its operators, read from
    left to right, a two-character operator taken before a one-character
    one. White space stays where it is. *)
Fixpoint spec_segments (s : str) : list str :=
  match s with
  | [] => [[]]
  | c1 :: s1 =>
      let cut1 :=
        if is_operator1 c1 then [] :: spec_segments s1
        else spec_extend c1 (spec_segments s1) in
      match s1 with
      | c2 :: s2 => if is_operator2 c1 c2 then [] :: spec_segments s2 else cut1
      | [] => cut1
      end
  end.

(** The first token of a segment: the code units after the leading white
    space, up to the next white space or the end. [started] tells that the
    token has begun. *)
Fixpoint spec_first_token_from (started : bool) (s : str) : str :=
  match s with
  | [] => []
  | c :: rest =>
      if is_space c then
        if started then [] else spec_first_token_from false rest
      else c :: spec_first_token_from true rest
  end.

Definition spec_first_token (segment : str) : str :=
  spec_first_token_from false segment.



(** The number of newline characters of a text. *)
Definition spec_newlines (text : str) : nat :=
  length (filter (fun c => c = 10) text).

(** The line count of the combined output: the lines of stdout, followed
    by the lines of stderr where stderr is not empty. The lines of a text
    are the pieces between its newline characters, so a text has one line
    more than it has newline characters: the empty text counts one line and
    a final newline opens a last, empty line. *)
Definition spec_line_count (result : ExecutionResult) : nat :=
  match stderr result with
  | [] => S (spec_newlines (stdout result))
  | _ :: _ => S (spec_newlines (stdout result)) + S (spec_newlines (stderr result))
  end.

(** The list of one-time records a store file holds, when it has the
    persisted shape: an object whose [commands] member is an array. *)
Definition once_list (f : file) : option (list json) :=
  match f with
  | Parsed (JObj members) =>
      match assoc (u "commands") members with
      | Some (JArr items) => Some items
      | _ => None
      end
  | _ => None
  end.

(** The list of durable rules a settings file holds, when it has the
    persisted shape: an object whose [permissions] member is an object whose
    [allow] member is an array. *)
Definition rule_list (f : file) : option (list json) :=
  match f with
  | Parsed (JObj members) =>
      match assoc (u "permissions") members with
      | Some (JObj perms) =>
          match assoc (u "allow") perms with
          | Some (JArr rules) => Some rules
          | _ => None
          end
      | _ => None
      end
  | _ => None
  end.

(** A store file that is absent or malformed: missing, unparseable, or
    parsed to a value that lacks the list where the schema puts it. *)
Definition once_malformed (f : file) : Prop := once_list f = None.
Definition settings_malformed (f : file) : Prop := rule_list f = None.

(** One of the four rule forms of the durable lookup lets [command]
    through: the exact rule, the prefix rule of the derived prefix, the
    prefix rule of the first token, or a [Bash] rule whose prefix is the
    command or is followed by a space in it. *)
Definition rule_matches (command rule : str) : bool :=
  str_eqb rule (exact_rule command)
  || str_eqb rule (prefix_rule (getCommandPrefix command))
  || str_eqb rule (prefix_rule (word0 (words command)))
  || match bash_match rule with
     | Some bashPrefix =>
         str_eqb command bashPrefix || startsWith command (bashPrefix ++ u " ")
     | None => false
     end.

(** The one-time store holds a record for [command]. *)
Definition holds_record (command : str) (f : file) : bool :=
  match once_list f with
  | Some items => includes command items
  | None => false
  end.

(** A string that does not begin, respectively end, with white space. *)
Definition starts_clean (s : str) : Prop :=
  match s with
  | c :: _ => is_space c = false
  | [] => True
  end.
Definition ends_clean (s : str) : Prop := starts_clean (reverse s).

Definition is_str (x : json) : bool :=
  match x with
  | JStr _ => true
  | _ => false
  end.

(** The rule list a durable grant works on: the list the settings file
    holds, or the empty list where the file or one of the two containers is
    missing. [None]: the file has another shape (the grant raises a
    TypeError or is not persisted). *)
Definition effective_rules (f : file) : option (list json) :=
  match f with
  | Absent | Unparseable _ => Some []
  | Parsed (JObj members) =>
      if truthy (assoc (u "permissions") members) then
        match assoc (u "permissions") members with
        | Some (JObj perms) =>
            if truthy (assoc (u "allow") perms) then
              match assoc (u "allow") perms with
              | Some (JArr rules) => Some rules
              | _ => None
              end
            else Some []
        | _ => None
        end
      else Some []
  | Parsed _ => None
  end.


(** The settings file is well formed: extensible, and its rules are
    strings. *)
Definition settings_well_formed (f : file) : bool :=
  match effective_rules f with
  | Some rules => forallb is_str rules
  | None => false
  end.


(** The record list a one-time grant works on: the list the store file
    holds, or the empty list where the file or its [commands] member is
    missing. [None]: the file has another shape (the grant raises a
    TypeError or is not persisted). *)
Definition effective_once (f : file) : option (list json) :=
  match f with
  | Absent | Unparseable _ => Some []
  | Parsed (JObj members) =>
      if truthy (assoc (u "commands") members) then
        match assoc (u "commands") members with
        | Some (JArr items) => Some items
        | _ => None
        end
      else Some []
  | Parsed _ => None
  end.

(** How many records of the one-time store equal [command]. *)
Definition count_record (command : str) (f : file) : nat :=
  length (filter (fun x => is_string command x = true) (default [] (once_list f))).

(** ** A file system without links, for the sample environments *)

(** [s.split("/")] *)
Fixpoint split_slash (s : str) : list str :=
  match s with
  | [] => [[]]
  | c :: s' =>
      if c =? 47 then [] :: split_slash s'
      else
        match split_slash s' with
        | seg :: segs => (c :: seg) :: segs
        | [] => [[c]]
        end
  end.

(** One step of the normalisation: the segments kept so far, innermost
    first, and the next segment. *)
Definition normalize_step (absolute : bool) (kept : list str) (seg : str)
  : list str :=
  if str_eqb seg [] || str_eqb seg (u ".") then kept
  else if str_eqb seg (u "..") then
    match kept with
    | top :: rest => if str_eqb top (u "..") then seg :: kept else rest
    | [] => if absolute then [] else [seg]
    end
  else seg :: kept.

Fixpoint join_slash (segs : list str) : str :=
  match segs with
  | [] => []
  | [seg] => seg
  | seg :: rest => seg ++ u "/" ++ join_slash rest
  end.

(** [path.normalize] of a POSIX path that does not end with a slash. *)
Definition posix_normalize (path : str) : str :=
  let absolute := startsWith path (u "/") in
  let kept := reverse (fold_left (normalize_step absolute) (split_slash path) []) in
  (if absolute then u "/" else []) ++ join_slash kept.

(** The settings file of a project directory where no link is involved:
    [path.join] normalises the path and the file system reads a relative one
    from the working directory of the process. *)
Definition posix_settings_path (process_cwd dir : str) : str :=
  let path := dir ++ u "/.claude/settings.local.json" in
  posix_normalize (if startsWith path (u "/") then path
                   else process_cwd ++ u "/" ++ path).

(** ** Sample environments and stores *)

Definition empty_disk : disk := {| once_store := Absent; settings_store := ∅ |}.

Definition failing_spawn_world : world :=
  {| process_cwd := u "/srv/app"; tmpdir := u "/tmp";
     run := fun _ _ => Child [Error (u "spawn bash ENOENT"); Close (Some (-2)%Z)];
     settings_path := posix_settings_path (u "/srv/app");
     elapsed_ms := 4; toFixed2 := fun _ => u "0.00";
     iso_now := u "2025-01-01T00:00:00.000Z";
     oracle := fun _ => Failed (u "unused") |}.

Definition killed_world : world :=
  {| process_cwd := u "/srv/app"; tmpdir := u "/tmp";
     run := fun _ _ => Child [StdoutData (u "partial"); Close None];
     settings_path := posix_settings_path (u "/srv/app");
     elapsed_ms := 1500; toFixed2 := fun _ => u "1.50";
     iso_now := u "2025-01-01T00:00:00.000Z";
     oracle := fun _ => Failed (u "unused") |}.


Definition build_world : world :=
  {| process_cwd := u "/srv/app"; tmpdir := u "/tmp";
     run := fun _ _ => Child [StdoutData (u "added 1 package"); Close (Some 0%Z)];
     settings_path := posix_settings_path (u "/srv/app");
     elapsed_ms := 2000; toFixed2 := fun _ => u "2.00";
     iso_now := u "2025-01-01T00:00:00.000Z";
     oracle := fun _ => Printed (u "SUCCESS: 1 package added") |}.

(** Both store files damaged: the one-time file holds a bare string, the
    settings file of the project has a number where the rule list goes. *)
Definition corrupt_disk : disk :=
  {| once_store := Parsed (JObj [(u "commands", JStr (u "make"))]);
     settings_store :=
       {[ u "/srv/app/.claude/settings.local.json" :=
            Parsed (JObj [(u "permissions", JObj [(u "allow", JNum 7)])]) ]} |}.

(** A one-time record for [ls] and a durable rule for the prefix
    [npm install] of the project [/srv/app]. *)
Definition granted_disk : disk :=
  {| once_store := Parsed (JObj [(u "commands", JArr [JStr (u "ls")])]);
     settings_store :=
       {[ u "/srv/app/.claude/settings.local.json" :=
            Parsed (JObj [(u "permissions",
                           JObj [(u "allow",
                                  JArr [JStr (prefix_rule (u "npm install"))])])]) ]} |}.

(** The oracle answers with a degenerate text. *)
Definition degenerate_world : world :=
  {| process_cwd := u "/srv/app"; tmpdir := u "/tmp";
     run := fun _ _ => Child [StdoutData (u "hello"); Close (Some 0%Z)];
     settings_path := posix_settings_path (u "/srv/app");
     elapsed_ms := 10; toFixed2 := fun _ => u "0.01";
     iso_now := u "2025-01-01T00:00:00.000Z";
     oracle := fun _ => Printed (u " ok ") |}.

(** The oracle call runs into its time limit. *)
Definition timeout_world : world :=
  {| process_cwd := u "/srv/app"; tmpdir := u "/tmp";
     run := fun _ _ => Child [StdoutData (u "hello"); Close (Some 0%Z)];
     settings_path := posix_settings_path (u "/srv/app");
     elapsed_ms := 10; toFixed2 := fun _ => u "0.01";
     iso_now := u "2025-01-01T00:00:00.000Z";
     oracle := fun _ => Failed (u "spawnSync /bin/sh ETIMEDOUT") |}.

(** [spawn] as Node has it: an argument or a working directory that holds
    the code unit 0 is refused before any child exists, with an exception
    raised to the caller of [spawn]. *)
Definition has_nul (s : str) : bool := existsb (N.eqb 0) s.

Definition NUL_MESSAGE : str :=
  u "The argument 'args[1]' must be a string without null bytes.".

Definition node_world : world :=
  {| process_cwd := u "/srv/app"; tmpdir := u "/tmp";
     run := fun command dir =>
              if has_nul command || has_nul dir then SpawnRaises NUL_MESSAGE
              else Child [StdoutData (u "hello"); Close (Some 0%Z)];
     settings_path := posix_settings_path (u "/srv/app");
     elapsed_ms := 10; toFixed2 := fun _ => u "0.01";
     iso_now := u "2025-01-01T00:00:00.000Z";
     oracle := fun _ => Failed (u "unused") |}.






(** The command [ls], a space and the code unit 0. *)
Definition nul_command : str := u "ls " ++ [0].

(** ** Further vocabulary *)

(** The maximal run of code units without white space at the head of a
    string. *)
Fixpoint first_token (s : str) : str :=
  match s with
  | c :: s' => if is_space c then [] else c :: first_token s'
  | [] => []
  end.

(** What the [data] listeners of the two streams have appended after the
    given events. *)
Fixpoint stdout_of (events : list proc_event) : str :=
  match events with
  | StdoutData data :: rest => data ++ stdout_of rest
  | _ :: rest => stdout_of rest
  | [] => []
  end.

Fixpoint stderr_of (events : list proc_event) : str :=
  match events with
  | StderrData data :: rest => data ++ stderr_of rest
  | _ :: rest => stderr_of rest
  | [] => []
  end.

(** The test [isVerboseCommand] applies to the first token of a segment. *)
Definition verbose_token (firstWord : str) : bool :=
  existsb (fun vc => str_eqb firstWord vc || startsWith firstWord (vc ++ u "-"))
          VERBOSE_COMMANDS.

(** [isVerboseCommand] of the first, single-file version of the server: the
    first token of the whole command is tested and the command is not
    split. Its catalog is the current one without [npx]. *)
Definition VERBOSE_COMMANDS_v1 : list str := u <$>
  [ "npm"; "yarn"; "pnpm"; "pip"; "apt"; "apt-get"; "brew"; "docker";
    "docker-compose"; "make"; "cargo"; "tsc"; "webpack"; "vite"; "eslint";
    "prettier" ]%string.

Definition isVerboseCommand_v1 (command : str) : bool :=
  let firstWord := word0 (words command) in
  existsb (fun vc => str_eqb firstWord vc || startsWith firstWord (vc ++ u "-"))
          VERBOSE_COMMANDS_v1.

(** A code unit that is neither white space nor part of an operator of the
    separator pattern. *)
Definition is_plain (c : N) : bool :=
  negb (is_space c) && negb (c =? 38) && negb (c =? 124) && negb (c =? 59).

(** ** Further sample environments *)

Definition interleaved_world : world :=
  {| process_cwd := u "/srv/app"; tmpdir := u "/tmp";
     run := fun _ _ =>
              Child [StdoutData (u "cc main.c"); StderrData (u "warning: unused");
                     StdoutData (u " done"); Close (Some 2%Z);
                     StdoutData (u "late")];
     settings_path := posix_settings_path (u "/srv/app");
     elapsed_ms := 300; toFixed2 := fun _ => u "0.30";
     iso_now := u "2025-01-01T00:00:00.000Z";
     oracle := fun _ => Failed (u "unused") |}.

Definition hanging_world : world :=
  {| process_cwd := u "/srv/app"; tmpdir := u "/tmp";
     run := fun _ _ => Child [StdoutData (u "line 1"); StdoutData (u "line 2")];
     settings_path := posix_settings_path (u "/srv/app");
     elapsed_ms := 0; toFixed2 := fun _ => u "0.00";
     iso_now := u "2025-01-01T00:00:00.000Z";
     oracle := fun _ => Failed (u "unused") |}.

(** A one-time store edited by hand: [make] is recorded twice. *)
Definition twice_granted : file :=
  Parsed (JObj [(u "commands", JArr [JStr (u "ls"); JStr (u "make"); JNum 3;
                                     JStr (u "make")])]).

(** The response and the stores after the durable grant of [docker build]
    in the project [/srv/other], here written with a final slash, starting
    from [granted_disk]. *)
Definition scoped_grant : response * disk :=
  match handleAllowCommandTool build_world (u "docker build")
          (Some (u "/srv/other/")) granted_disk with
  | Ret result => result
  | Throws => ({| text := []; isError := true |}, granted_disk)
  end.

(** Settings written by the Bash tool of the host application. *)
Definition bash_rules_disk : disk :=
  {| once_store := Absent;
     settings_store :=
       {[ u "/srv/app/.claude/settings.local.json" :=
            Parsed (JObj [(u "permissions",
                           JObj [(u "allow",
                                  JArr [JStr (u "Bash(npm install:*)");
                                        JStr (u "Bash(pnpm exec tsc:*)")])])]) ]} |}.

(** Settings whose rule list holds a [null] between two rules. *)
Definition blocked_disk : disk :=
  {| once_store := Absent;
     settings_store :=
       {[ u "/srv/app/.claude/settings.local.json" :=
            Parsed (JObj [(u "permissions",
                           JObj [(u "allow",
                                  JArr [JStr (u "Bash(ls:*)"); JNull;
                                        JStr (prefix_rule (u "npm install"))])])]) ]} |}.

(** The oracle prints white space only. *)
Definition blank_oracle_world : world :=
  {| process_cwd := u "/srv/app"; tmpdir := u "/tmp";
     run := fun _ _ => Child [StdoutData (u "hello"); Close (Some 0%Z)];
     settings_path := posix_settings_path (u "/srv/app");
     elapsed_ms := 10; toFixed2 := fun _ => u "0.01";
     iso_now := u "2025-01-01T00:00:00.000Z";
     oracle := fun _ => Printed [32; 10; 9] |}.

(** The response and the stores after a one-time grant, where it returns. *)
Definition once_grant_of (command : str) (d : disk) : response * disk :=
  match handleAllowOnceTool command d with
  | Ret result => result
  | Throws => ({| text := []; isError := true |}, d)
  end.

(** * Sanity checks of the embedding *)

Example words_ex1 : words (u "  npm   install lodash ") = [u "npm"; u "install"; u "lodash"].
Proof. reflexivity. Qed.
Example words_ex2 : words (u "   ") = [[]].
Proof. reflexivity. Qed.
Example split_ws_ex : split_ws (u " a  b ") = [[]; u "a"; u "b"; []].
Proof. reflexivity. Qed.
Example split_ops_ex1 :
  split_ops (u "cd app && npm install | tee log ; ls||true")
  = [u "cd app"; u "npm install"; u "tee log"; u "ls"; u "true"].
Proof. reflexivity. Qed.
Example split_ops_ex2 : split_ops (u "a;;b ;") = [u "a"; []; u "b"; []].
Proof. reflexivity. Qed.
Example split_ops_ex3 : split_ops (u "a & b  c") = [u "a & b  c"].
Proof. reflexivity. Qed.
Example safe_ex1 : isSafeCommand (u "git status --short") = true.
Proof. reflexivity. Qed.
Example safe_ex2 : isSafeCommand (u "  ls -la") = true.
Proof. reflexivity. Qed.
Example safe_ex3 : isSafeCommand (u "echo hello") = false.
Proof. reflexivity. Qed.
Example verbose_ex1 : isVerboseCommand (u "cd app && docker-compose up") = true.
Proof. reflexivity. Qed.
Example verbose_ex2 : isVerboseCommand (u "git status") = false.
Proof. reflexivity. Qed.
Example prefix_ex1 : getCommandPrefix (u " npm   install lodash") = u "npm install".
Proof. reflexivity. Qed.
Example prefix_ex2 : getCommandPrefix (u "ls") = u "ls".
Proof. reflexivity. Qed.
Example bash_match_ex1 : bash_match (u "Bash(npm install:*)") = Some (u "npm install").
Proof. reflexivity. Qed.
Example bash_match_ex2 : bash_match (u "Bash(:*)") = None.
Proof. reflexivity. Qed.
Example bash_match_ex3 : bash_match (u "Bash(a:*):*)") = Some (u "a:*)").
Proof. reflexivity. Qed.
Example scan_rules_ex1 :
  scan_rules (u "pnpm exec tsc --noEmit")
    [JStr (u "Bash(npm install:*)"); JStr (u "Bash(pnpm exec tsc:*)")] = true.
Proof. reflexivity. Qed.
Example scan_rules_ex2 :
  scan_rules (u "npm install lodash") [JNum 1; JStr (prefix_rule (u "npm install"))]
  = false.
Proof. reflexivity. Qed.
Example code_points_ex : code_points [104; 55357; 56832; 105] = [[104]; [55357; 56832]; [105]].
Proof. reflexivity. Qed.
Example split_nl_ex : length (split_nl (u "a" ++ nl ++ u "b" ++ nl)) = 3%nat.
Proof. reflexivity. Qed.
Example once_ex1 :
  isAllowedOnce (u "make")
    (Parsed (JObj [(u "commands", JArr [JStr (u "ls"); JStr (u "make"); JStr (u "make")])]))
  = (true, Parsed (JObj [(u "commands", JArr [JStr (u "ls"); JStr (u "make")])])).
Proof. reflexivity. Qed.
Example once_ex2 : addAllowOnce (u "make") (Parsed JNull) = Throws.
Proof. reflexivity. Qed.
Example deny_ex :
  fst (checkPermission build_world (u "echo hello") None empty_disk) = Deny.
Proof. reflexivity. Qed.
Example decision_ex1 : shouldCompress None (u "npm install") 5 = false.
Proof. reflexivity. Qed.
Example decision_ex2 : shouldCompress None (u "npm install") 35 = true.
Proof. reflexivity. Qed.
Example decision_ex3 : shouldCompress (Some (JBool false)) (u "npm install") 35 = false.
Proof. reflexivity. Qed.
Example decision_ex4 : shouldCompress (Some (JBool true)) (u "git status") 1 = true.
Proof. reflexivity. Qed.
Example decision_ex5 : shouldCompress (Some (JStr (u "true"))) (u "git status") 99 = false.
Proof. reflexivity. Qed.
Example settings_path_ex1 :
  posix_settings_path (u "/srv/app") (u "/srv/other/")
  = u "/srv/other/.claude/settings.local.json".
Proof. reflexivity. Qed.
Example settings_path_ex2 :
  posix_settings_path (u "/srv/app") (u "../other/./x/..")
  = u "/srv/other/.claude/settings.local.json".
Proof. reflexivity. Qed.
Example spec_segments_ex1 :
  spec_segments (u "cd app && npm ci|tee log ; ls")
  = [u "cd app "; u " npm ci"; u "tee log "; u " ls"].
Proof. reflexivity. Qed.
Example spec_segments_ex2 : spec_segments (u "a&b|||c&&&d") = [u "a&b"; []; u "c"; u "&d"].
Proof. reflexivity. Qed.
Example spec_first_token_ex : spec_first_token (u "  docker-compose up") = u "docker-compose".
Proof. reflexivity. Qed.
Example spec_line_count_ex :
  spec_line_count {| exitCode := 0; stdout := u "a" ++ nl ++ u "b" ++ nl;
                     stderr := u "warn"; duration := [] |} = 4%nat.
Proof. reflexivity. Qed.

(** * Properties *)

(** ** Auxiliary facts on strings and JSON lists *)

Lemma str_eqb_eq (a b : str) : str_eqb a b = true <-> a = b.
Proof. unfold str_eqb. apply bool_decide_eq_true. Qed.

Lemma str_eqb_refl (a : str) : str_eqb a a = true.
Proof. by apply str_eqb_eq. Qed.

Lemma str_eqb_neq (a b : str) : str_eqb a b = false <-> a <> b.
Proof. unfold str_eqb. apply bool_decide_eq_false. Qed.

Lemma startsWith_app (b r : str) : startsWith (b ++ r) b = true.
Proof. induction b as [|y b IH]; simpl; [done|]. by rewrite N.eqb_refl, IH. Qed.

Lemma startsWith_spec (a b : str) : startsWith a b = true <-> exists r, a = b ++ r.
Proof.
  split.
  - revert a. induction b as [|y b IH]; intros a H.
    + by exists a.
    + destruct a as [|x a]; simpl in H; [done|].
      apply andb_true_iff in H as [Hxy H]. apply N.eqb_eq in Hxy as ->.
      destruct (IH _ H) as [r ->]. by exists r.
  - intros [r ->]. apply startsWith_app.
Qed.

(** ** Process Execution Service *)

Lemma settle_data_prefix w pre e rest out err :
  Forall is_data pre ->
  exists out' err', settle w (pre ++ e :: rest) out err = settle w (e :: rest) out' err'.
Proof.
  intros Hpre. revert out err.
  induction Hpre as [|x pre Hx _ IH]; intros out err; simpl.
  - by exists out, err.
  - destruct x; simpl in Hx; try done; apply IH.
Qed.

(** X20. When [spawn] hands back a child that then reports a start failure (the
    [error] event, as for a missing interpreter or working directory), the
    listener settles the promise of [executeCommand] with a synthetic
    result: exit code 1, empty stdout, the failure message as stderr and the
    measured duration. *)
Theorem spawn_failure_normalized (w : world) (command : str) (cwd : option str)
    (pre rest : list proc_event) (message : str) :
  Forall is_data pre ->
  run w command (projectDir w cwd) = Child (pre ++ Error message :: rest) ->
  exists result,
    executeCommand w command cwd = Resolved result
    /\ exitCode result <> 0%Z
    /\ exitCode result = 1%Z
    /\ stdout result = []
    /\ stderr result = message
    /\ duration result = toFixed2 w (elapsed_ms w).
Proof.
  intros Hpre Hrun.
  unfold executeCommand. rewrite Hrun.
  destruct (settle_data_prefix w pre (Error message) rest [] [] Hpre)
    as (out' & err' & ->).
  simpl. eexists. split; [reflexivity|]. simpl. by repeat split.
Qed.

Lemma spawn_failure_normalized_witness :
  exists result,
    executeCommand failing_spawn_world (u "make") None = Resolved result
    /\ exitCode result <> 0%Z
    /\ exitCode result = 1%Z
    /\ stdout result = []
    /\ stderr result = u "spawn bash ENOENT"
    /\ duration result = u "0.00".
Proof.
  apply (spawn_failure_normalized failing_spawn_world (u "make") None []
           [Close (Some (-2)%Z)] (u "spawn bash ENOENT")).
  - constructor.
  - reflexivity.
Defined.

(** C7. A start failure that [spawn] raises itself is not normalised. The
    call of [spawn] sits in the executor of the promise with nothing around
    it, so when the command holds the code unit 0 the promise of
    [executeCommand] is rejected with the exception: no result is
    synthesised, and the shell handler, which awaits it for this allowed
    command, is rejected with it. *)
Theorem spawn_exception_escapes :
  isSafeCommand nul_command = true
  /\ run node_world nul_command (projectDir node_world None)
     = SpawnRaises NUL_MESSAGE
  /\ executeCommand node_world nul_command None = Rejected NUL_MESSAGE
  /\ (forall result,
        executeCommand node_world nul_command None <> Resolved result)
  /\ handleShellTool node_world
       {| command := nul_command; cwd := None; compress := None |} empty_disk
     = Rejected NUL_MESSAGE.
Proof.
  split; [reflexivity|]. split; [reflexivity|].
  assert (H : executeCommand node_world nul_command None = Rejected NUL_MESSAGE)
    by reflexivity.
  split; [exact H|]. split; [by rewrite H|].
  reflexivity.
Qed.

(** ** The shell handler once permission is granted *)

Lemma handleShellTool_allowed (w : world) (args : shell_args) (d d' : disk)
    (result : ExecutionResult) :
  checkPermission w (command args) (cwd args) d = (Allow, d') ->
  executeCommand w (command args) (cwd args) = Resolved result ->
  let fullOutput := fullOutput_of result in
  let lineCount := length (split_nl fullOutput) in
  let logFile := join (LOG_DIR w) (timestamp w ++ u ".log") in
  let prompt := build_prompt fullOutput (command args) (exitCode result) in
  handleShellTool w args d
  = Resolved
      (if shouldCompress (compress args) (command args) lineCount then
         {| reply :=
              {| text := finalOutput_of lineCount result logFile fullOutput
                           (compressWithHaiku w fullOutput (command args)
                              (exitCode result));
                 isError := negb (exitCode result =? 0)%Z |};
            after := d';
            trace := [Spawned (command args) (projectDir w (cwd args));
                      WroteLog logFile fullOutput; AskedOracle prompt] |}
       else
         {| reply := {| text := fullOutput;
                        isError := negb (exitCode result =? 0)%Z |};
            after := d';
            trace := [Spawned (command args) (projectDir w (cwd args))] |}).
Proof.
  intros Hperm Hexec. unfold handleShellTool. rewrite Hperm, Hexec.
  simpl. by destruct (shouldCompress _ _ _).
Qed.

Lemma handleShellTool_denied (w : world) (args : shell_args) (d d' : disk) :
  checkPermission w (command args) (cwd args) d = (Deny, d') ->
  handleShellTool w args d
  = Resolved {| reply := {| text := denial_text (command args); isError := true |};
            after := d'; trace := [] |}.
Proof. intros Hperm. unfold handleShellTool. by rewrite Hperm. Qed.

Lemma handleShellTool_after (w : world) (args : shell_args) (d : disk)
    (o : outcome) :
  handleShellTool w args d = Resolved o -> after o = stores_after_shell w args d.
Proof.
  unfold handleShellTool, stores_after_shell.
  destruct (checkPermission w (command args) (cwd args) d) as [verdict d'].
  destruct verdict; [|by intros [= <-]].
  destruct (executeCommand w (command args) (cwd args)) as [result| |]; [|done..].
  by destruct (shouldCompress _ _ _); intros [= <-].
Qed.

(** C10. A child that ends without an exit code (the [close] event carries
    [null], as after a signal) is reported with exit code 0, and the
    response of an allowed request then has its error flag cleared: the flag
    is set exactly when the reported exit code is not zero. *)
Theorem signal_termination_reported_as_success (w : world) (args : shell_args)
    (d d' : disk) (pre rest : list proc_event) :
  Forall is_data pre ->
  run w (command args) (projectDir w (cwd args)) = Child (pre ++ Close None :: rest) ->
  checkPermission w (command args) (cwd args) d = (Allow, d') ->
  exists result o,
    executeCommand w (command args) (cwd args) = Resolved result
    /\ exitCode result = 0%Z
    /\ handleShellTool w args d = Resolved o
    /\ isError (reply o) = negb (exitCode result =? 0)%Z
    /\ isError (reply o) = false.
Proof.
  intros Hpre Hrun Hperm.
  destruct (settle_data_prefix w pre (Close None) rest [] [] Hpre)
    as (out' & err' & Hsettle).
  assert (Hexec : executeCommand w (command args) (cwd args)
                  = Resolved {| exitCode := 0; stdout := out'; stderr := err';
                            duration := toFixed2 w (elapsed_ms w) |}).
  { unfold executeCommand. by rewrite Hrun, Hsettle. }
  eexists. eexists. split; [exact Hexec|]. split; [reflexivity|].
  rewrite (handleShellTool_allowed w args d d' _ Hperm Hexec).
  split; [reflexivity|].
  by destruct (shouldCompress _ _ _).
Qed.

Lemma signal_termination_reported_as_success_witness :
  exists result o,
    executeCommand killed_world (u "tail -f log") None = Resolved result
    /\ exitCode result = 0%Z
    /\ handleShellTool killed_world
         {| command := u "tail -f log"; cwd := None; compress := None |}
         empty_disk = Resolved o
    /\ isError (reply o) = negb (exitCode result =? 0)%Z
    /\ isError (reply o) = false.
Proof.
  apply (signal_termination_reported_as_success killed_world
           {| command := u "tail -f log"; cwd := None; compress := None |}
           empty_disk empty_disk [StdoutData (u "partial")] []).
  - repeat constructor.
  - reflexivity.
  - vm_compute. reflexivity.
Defined.

(** ** Compression Orchestrator: the decision *)




(** ** Permission Resolution Engine: reading the stores *)

Lemma isAllowedOnce_malformed (command : str) (f : file) :
  once_list f = None -> isAllowedOnce command f = (false, f).
Proof.
  destruct f as [| t | data]; try done.
  destruct data as [| b | z | s | items | members]; try done.
  simpl. destruct (assoc (u "commands") members) as [[| b | z | s | items | ms]|];
    try done.
  - by destruct b.
  - intros _. simpl. by destruct (negb (z =? 0)%Z).
  - intros _. simpl. destruct (negb (str_eqb s [])); [|done].
    by destruct (str_includes s command).
Qed.

Lemma isAllowedOnce_list (command : str) (f : file) (items : list json) :
  once_list f = Some items ->
  isAllowedOnce command f
  = match indexOf command items with
    | Some index => (true, Parsed (JObj [(u "commands", JArr (delete index items))]))
    | None => (false, f)
    end.
Proof.
  destruct f as [| t | data]; try done.
  destruct data as [| b | z | s | its | members]; try done.
  simpl. destruct (assoc (u "commands") members) as [[| b | z | s | its | ms]|];
    try done.
  by intros [= ->].
Qed.

Lemma indexOf_includes (command : str) (items : list json) :
  includes command items = false <-> indexOf command items = None.
Proof.
  unfold includes. induction items as [|x items IH]; simpl; [done|].
  destruct (is_string command x); simpl; [done|].
  rewrite IH. by destruct (indexOf command items).
Qed.

Lemma isAllowedOnce_no_record (command : str) (f : file) :
  holds_record command f = false -> isAllowedOnce command f = (false, f).
Proof.
  unfold holds_record. destruct (once_list f) as [items|] eqn:Hl.
  - intros H. rewrite (isAllowedOnce_list _ _ _ Hl).
    apply indexOf_includes in H. by rewrite H.
  - intros _. by apply isAllowedOnce_malformed.
Qed.

Lemma isAllowedOnce_false (command : str) (f f' : file) :
  isAllowedOnce command f = (false, f') -> f' = f.
Proof.
  destruct (once_list f) as [items|] eqn:Hl.
  - rewrite (isAllowedOnce_list _ _ _ Hl).
    destruct (indexOf command items); congruence.
  - rewrite (isAllowedOnce_malformed _ _ Hl). congruence.
Qed.

Lemma code_points_short (s : str) :
  Forall (fun p => length p <= 2)%nat (code_points s).
Proof.
  induction s as [|c s IH]; simpl; [constructor|].
  destruct s as [|d s]; [repeat constructor|].
  destruct ((55296 <=? c) && (c <=? 56319) && (56320 <=? d) && (d <=? 57343)).
  - destruct (code_points (d :: s)) as [|p ps]; [repeat constructor|].
    apply Forall_cons in IH as [_ IH]. constructor; [simpl; lia|done].
  - constructor; [simpl; lia|done].
Qed.

Lemma rule_lengths (x : str) :
  length (exact_rule x) = (38 + length x)%nat
  /\ length (prefix_rule x) = (40 + length x)%nat.
Proof.
  unfold exact_rule, prefix_rule. rewrite !length_app. simpl. lia.
Qed.

Lemma bash_match_short (rule : str) :
  (length rule <= 2)%nat -> bash_match rule = None.
Proof.
  intros H. unfold bash_match.
  destruct rule as [|a [|b [|c rule]]]; simpl in *; try done; try lia.
  - by rewrite andb_false_r.
  - by rewrite !andb_false_r.
Qed.

Lemma scan_rules_short (command : str) (pieces : list str) :
  Forall (fun p => length p <= 2)%nat pieces ->
  scan_rules command (JStr <$> pieces) = false.
Proof.
  induction 1 as [|p pieces Hp _ IH]; simpl; [done|].
  assert (Hne : forall x, str_eqb p (exact_rule x) = false
                          /\ str_eqb p (prefix_rule x) = false).
  { intros x. destruct (rule_lengths x) as [H1 H2].
    split; apply str_eqb_neq; intros ->; lia. }
  rewrite (proj1 (Hne _)), !(proj2 (Hne _)), (bash_match_short _ Hp).
  exact IH.
Qed.

Lemma isCommandAllowed_malformed (w : world) (command : str) (cwd : option str)
    (m : gmap str file) :
  rule_list (read_settings m (settingsFile w cwd)) = None ->
  isCommandAllowed w command cwd m = false.
Proof.
  unfold isCommandAllowed.
  destruct (read_settings m (settingsFile w cwd)) as [| t | data]; try done.
  destruct data as [| b | z | s | items | members]; try done.
  simpl.
  destruct (assoc (u "permissions") members) as [[| b | z | s | items | perms]|];
    try done.
  simpl.
  destruct (assoc (u "allow") perms) as [[| b | z | s | items | ms]|]; try done.
  - by destruct b.
  - intros _. simpl. by destruct (negb (z =? 0)%Z).
  - intros _. simpl. destruct (negb (str_eqb s [])); [|done].
    apply scan_rules_short, code_points_short.
Qed.

Lemma isCommandAllowed_list (w : world) (command : str) (cwd : option str)
    (m : gmap str file) (rules : list json) :
  rule_list (read_settings m (settingsFile w cwd)) = Some rules ->
  isCommandAllowed w command cwd m = scan_rules command rules.
Proof.
  unfold isCommandAllowed.
  destruct (read_settings m (settingsFile w cwd)) as [| t | data]; try done.
  destruct data as [| b | z | s | items | members]; try done.
  simpl.
  destruct (assoc (u "permissions") members) as [[| b | z | s | items | perms]|];
    try done.
  simpl.
  destruct (assoc (u "allow") perms) as [[| b | z | s | items | ms]|]; try done.
  by intros [= ->].
Qed.

Lemma indexOf_elem_of (command : str) (items : list json) (index : nat) :
  indexOf command items = Some index -> JStr command ∈ items.
Proof.
  revert index. induction items as [|x items IH]; intros index; simpl; [done|].
  destruct (is_string command x) eqn:Hx.
  - intros _. destruct x as [| | | s | |]; try done.
    apply str_eqb_eq in Hx as ->. apply list_elem_of_here.
  - destruct (indexOf command items) as [i|]; [|done].
    intros _. apply list_elem_of_further. by apply (IH i).
Qed.

Lemma scan_rules_true (command : str) (rules : list json) :
  scan_rules command rules = true ->
  exists rule, JStr rule ∈ rules /\ rule_matches command rule = true.
Proof.
  induction rules as [|x rules IH]; simpl; [done|].
  destruct x as [| | | rule | |]; try done.
  unfold rule_matches in *.
  destruct (str_eqb rule (exact_rule command)) eqn:H1.
  { intros _. exists rule. rewrite H1. split; [apply list_elem_of_here|done]. }
  destruct (str_eqb rule (prefix_rule (getCommandPrefix command))) eqn:H2.
  { intros _. exists rule. rewrite H1, H2.
    split; [apply list_elem_of_here|done]. }
  destruct (str_eqb rule (prefix_rule (word0 (words command)))) eqn:H3.
  { intros _. exists rule. rewrite H1, H2, H3.
    split; [apply list_elem_of_here|done]. }
  assert (Hrest : scan_rules command rules = true ->
                  exists rule0, JStr rule0 ∈ JStr rule :: rules
                                /\ rule_matches command rule0 = true).
  { intros H. destruct (IH H) as (rule0 & Hin & Hm).
    exists rule0. split; [by apply list_elem_of_further|done]. }
  destruct (bash_match rule) as [bashPrefix|] eqn:Hb; [|exact Hrest].
  destruct (str_eqb command bashPrefix || startsWith command (bashPrefix ++ u " "))
    eqn:H4; [|exact Hrest].
  intros _. exists rule. rewrite H1, H2, H3, Hb, H4.
  split; [apply list_elem_of_here|done].
Qed.

(** C8. A one-time store or a durable rule store that is absent or holds
    malformed data (unparseable text, or a value without the list where the
    schema puts it) is treated as empty: the lookup answers no match, as it
    does on a missing file, the file is left as it is, and no error reaches
    the caller (both lookups are total and answer a plain boolean). A match
    is only ever answered from a list in the persisted place: the command
    itself among the one-time records, a matching string among the rules. *)
Theorem fail_open_on_read_corruption (w : world) (command : str)
    (cwd : option str) (d : disk) :
  (once_malformed (once_store d) ->
   isAllowedOnce command (once_store d) = (false, once_store d)
   /\ fst (isAllowedOnce command (once_store d))
      = fst (isAllowedOnce command Absent))
  /\ (settings_malformed (read_settings (settings_store d) (settingsFile w cwd)) ->
      isCommandAllowed w command cwd (settings_store d) = false
      /\ isCommandAllowed w command cwd (settings_store d)
         = isCommandAllowed w command cwd ∅)
  /\ (fst (isAllowedOnce command (once_store d)) = true ->
      exists items,
        once_list (once_store d) = Some items /\ JStr command ∈ items)
  /\ (isCommandAllowed w command cwd (settings_store d) = true ->
      exists rules rule,
        rule_list (read_settings (settings_store d) (settingsFile w cwd)) = Some rules
        /\ JStr rule ∈ rules /\ rule_matches command rule = true).
Proof.
  split; [|split; [|split]].
  - intros H. by rewrite (isAllowedOnce_malformed _ _ H).
  - intros H. by rewrite (isCommandAllowed_malformed _ _ _ _ H).
  - destruct (once_list (once_store d)) as [items|] eqn:Hl.
    + rewrite (isAllowedOnce_list _ _ _ Hl).
      destruct (indexOf command items) as [index|] eqn:Hi; [|done].
      intros _. exists items. split; [done|]. by apply (indexOf_elem_of _ _ index).
    + by rewrite (isAllowedOnce_malformed _ _ Hl).
  - destruct (rule_list (read_settings (settings_store d) (settingsFile w cwd)))
      as [rules|] eqn:Hl.
    + rewrite (isCommandAllowed_list _ _ _ _ _ Hl). intros H.
      destruct (scan_rules_true _ _ H) as (rule & Hin & Hm).
      by exists rules, rule.
    + by rewrite (isCommandAllowed_malformed _ _ _ _ Hl).
Qed.

Lemma fail_open_on_read_corruption_witness :
  (isAllowedOnce (u "make") (once_store corrupt_disk)
   = (false, once_store corrupt_disk)
   /\ fst (isAllowedOnce (u "make") (once_store corrupt_disk))
      = fst (isAllowedOnce (u "make") Absent))
  /\ (isCommandAllowed build_world (u "make") None (settings_store corrupt_disk)
      = false
      /\ isCommandAllowed build_world (u "make") None (settings_store corrupt_disk)
         = isCommandAllowed build_world (u "make") None ∅).
Proof.
  destruct (fail_open_on_read_corruption build_world (u "make") None corrupt_disk)
    as (Honce & Hsettings & _).
  split; [apply Honce | apply Hsettings]; reflexivity.
Defined.

(** ** Permission Resolution Engine: the decision *)

Lemma checkPermission_unfold (w : world) (command : str) (cwd : option str)
    (d : disk) :
  checkPermission w command cwd d
  = (if negb (isSafeCommand command)
        && negb (fst (isAllowedOnce command (once_store d)))
        && negb (isCommandAllowed w command cwd (settings_store d))
     then Deny else Allow,
     {| once_store := snd (isAllowedOnce command (once_store d));
        settings_store := settings_store d |}).
Proof.
  unfold checkPermission.
  destruct (isAllowedOnce command (once_store d)) as [allowedOnce once'].
  simpl. by destruct (_ && _).
Qed.

(** C9. A denial leaves both stores as they were: the one-time store is
    written only on a match, which yields allow, and the durable store is
    only read. The denied request runs nothing. *)
Theorem denial_leaves_stores_unchanged (w : world) (args : shell_args)
    (d d' : disk) :
  checkPermission w (command args) (cwd args) d = (Deny, d') ->
  d' = d
  /\ once_store d' = once_store d
  /\ settings_store d' = settings_store d
  /\ handleShellTool w args d
     = Resolved {| reply := {| text := denial_text (command args); isError := true |};
               after := d; trace := [] |}.
Proof.
  intros Hperm.
  assert (Hd : d' = d).
  { rewrite checkPermission_unfold in Hperm.
    destruct (isAllowedOnce (command args) (once_store d)) as [b once'] eqn:Honce.
    simpl in Hperm. destruct b.
    - rewrite andb_false_r in Hperm. simpl in Hperm. congruence.
    - apply isAllowedOnce_false in Honce as ->.
      injection Hperm as _ <-. by destruct d. }
  subst d'. repeat split. by apply handleShellTool_denied.
Qed.

Lemma denial_leaves_stores_unchanged_witness :
  granted_disk = granted_disk
  /\ once_store granted_disk = once_store granted_disk
  /\ settings_store granted_disk = settings_store granted_disk
  /\ handleShellTool build_world
       {| command := u "echo hello"; cwd := None; compress := None |} granted_disk
     = Resolved {| reply := {| text := denial_text (u "echo hello"); isError := true |};
               after := granted_disk; trace := [] |}.
Proof.
  apply (denial_leaves_stores_unchanged build_world
           {| command := u "echo hello"; cwd := None; compress := None |}
           granted_disk granted_disk).
  vm_compute. reflexivity.
Defined.

Lemma isSafeCommand_spec (command : str) :
  isSafeCommand command = true <-> matches_safe_catalog command.
Proof.
  unfold isSafeCommand, matches_safe_catalog. rewrite existsb_exists.
  split.
  - intros (entry & Hin & H). exists entry. rewrite list_elem_of_In.
    split; [done|].
    rewrite !orb_true_iff, !str_eqb_eq, startsWith_spec in H.
    destruct H as [[H | [rest H]] | H]; [by left | | by right; right].
    right; left. exists rest. by rewrite H, <- app_assoc.
  - intros (entry & Hin & H). exists entry. rewrite <- list_elem_of_In.
    split; [done|].
    rewrite !orb_true_iff, !str_eqb_eq, startsWith_spec.
    destruct H as [H | [[rest H] | H]]; [by left; left | | by right].
    left; right. exists rest. by rewrite H, <- app_assoc.
Qed.

(** C1, as stated, fails: the one-time lookup runs before the test on the
    three answers, so a safe command that also has a one-time record is
    allowed and its record is consumed. *)
Lemma safe_command_consumes_record :
  matches_safe_catalog (u "ls")
  /\ checkPermission build_world (u "ls") None granted_disk
     = (Allow, {| once_store := Parsed (JObj [(u "commands", JArr [])]);
                  settings_store := settings_store granted_disk |})
  /\ ~ (forall (w : world) (command : str) (cwd : option str) (d : disk),
          matches_safe_catalog command ->
          checkPermission w command cwd d = (Allow, d)).
Proof.
  assert (Hls : matches_safe_catalog (u "ls")) by (by apply isSafeCommand_spec).
  split; [done|]. split; [vm_compute; reflexivity|].
  intros H. specialize (H build_world (u "ls") None granted_disk Hls).
  apply (f_equal (fun p => once_list (once_store (snd p)))) in H.
  vm_compute in H. discriminate H.
Qed.

(** C1, amended. A command that matches the safe catalog is allowed whatever
    the stores hold. The durable rule store is left unchanged. The one-time
    store is left unchanged unless it holds a record equal to the command,
    and then the first such record is removed from it. *)
Theorem safe_command_allowed (w : world) (command : str) (cwd : option str)
    (d : disk) :
  matches_safe_catalog command ->
  fst (checkPermission w command cwd d) = Allow
  /\ settings_store (snd (checkPermission w command cwd d)) = settings_store d
  /\ (holds_record command (once_store d) = false ->
      snd (checkPermission w command cwd d) = d)
  /\ (forall items index,
        once_list (once_store d) = Some items ->
        indexOf command items = Some index ->
        once_store (snd (checkPermission w command cwd d))
        = Parsed (JObj [(u "commands", JArr (delete index items))])).
Proof.
  intros Hsafe. apply isSafeCommand_spec in Hsafe.
  rewrite checkPermission_unfold, Hsafe. simpl.
  repeat split.
  - intros H. rewrite (isAllowedOnce_no_record _ _ H). by destruct d.
  - intros items index Hl Hi. by rewrite (isAllowedOnce_list _ _ _ Hl), Hi.
Qed.

Lemma safe_command_allowed_witness :
  matches_safe_catalog (u "git status --short")
  /\ fst (checkPermission build_world (u "git status --short") None granted_disk)
     = Allow
  /\ settings_store
       (snd (checkPermission build_world (u "git status --short") None granted_disk))
     = settings_store granted_disk
  /\ snd (checkPermission build_world (u "git status --short") None granted_disk)
     = granted_disk.
Proof.
  assert (Hsafe : matches_safe_catalog (u "git status --short")).
  { exists (u "git status"). split.
    - apply list_elem_of_In. vm_compute.
      repeat (first [left; reflexivity | right]).
    - right; left. exists (u "--short"). reflexivity. }
  destruct (safe_command_allowed build_world (u "git status --short") None
              granted_disk Hsafe) as (Hallow & Hsettings & Honce & _).
  split; [exact Hsafe|]. split; [exact Hallow|]. split; [exact Hsettings|].
  apply Honce. reflexivity.
Defined.

(** ** Compression Orchestrator: the fallback *)

(** C2, as stated, fails for a degenerate oracle result: in this compressed
    invocation the artifact is written and the oracle answers [ok]; the
    reply is the original output alone, with neither the failure banner nor
    the path of the artifact. *)
Lemma degenerate_result_has_no_banner :
  let logFile := u "/tmp/compressed-shell-logs/2025-01-01T00-00-00-000Z.log" in
  compressWithHaiku degenerate_world (u "hello") (u "ls") 0 = inl (u "ok")
  /\ handleShellTool degenerate_world
       {| command := u "ls"; cwd := None; compress := Some (JBool true) |}
       empty_disk
     = Resolved {| reply := {| text := u "hello"; isError := false |};
                   after := empty_disk;
                   trace := [Spawned (u "ls") (u "/srv/app");
                             WroteLog logFile (u "hello");
                             AskedOracle (build_prompt (u "hello") (u "ls") 0)] |}
  /\ (forall error, u "hello" <> failure_text error logFile (u "hello")).
Proof.
  split; [reflexivity|]. split; [vm_compute; reflexivity|].
  intros error H. apply (f_equal (fun s => head s)) in H.
  vm_compute in H. discriminate H.
Qed.

(** C2, amended. In a compressed invocation the raw output is first written
    to the artifact. If the oracle times out or fails, the returned text is
    the banner stating that compression failed, the path of the artifact,
    and then the complete unmodified combined output. If the oracle returns
    a degenerate result (at most 10 characters once trimmed), the returned
    text is the complete unmodified combined output alone. *)
Theorem compression_fallback (w : world) (args : shell_args) (d d' : disk)
    (result : ExecutionResult) :
  let fullOutput := fullOutput_of result in
  let logFile := join (LOG_DIR w) (timestamp w ++ u ".log") in
  let prompt := build_prompt fullOutput (command args) (exitCode result) in
  checkPermission w (command args) (cwd args) d = (Allow, d') ->
  executeCommand w (command args) (cwd args) = Resolved result ->
  shouldCompress (compress args) (command args) (length (split_nl fullOutput))
  = true ->
  exists o,
    handleShellTool w args d = Resolved o
    /\ trace o = [Spawned (command args) (projectDir w (cwd args));
                  WroteLog logFile fullOutput; AskedOracle prompt]
    /\ (forall message,
          oracle w prompt = Failed message -> message <> [] ->
          text (reply o)
          = u "[Compression failed: " ++ message ++ u "]" ++ nl
            ++ u "[Full output: " ++ logFile ++ u "]" ++ nl ++ nl ++ fullOutput)
    /\ (forall output,
          oracle w prompt = Printed output -> (length (trim output) <= 10)%nat ->
          text (reply o) = fullOutput).
Proof.
  intros fullOutput logFile prompt Hperm Hexec Hc.
  rewrite (handleShellTool_allowed w args d d' result Hperm Hexec).
  fold fullOutput logFile prompt. rewrite Hc.
  eexists. split; [reflexivity|]. split; [reflexivity|]. simpl.
  unfold compressWithHaiku. fold prompt. split.
  - intros message -> Hne. simpl.
    apply str_eqb_neq in Hne. by rewrite Hne.
  - intros output -> Hlen. simpl.
    destruct (10 <? length (trim output))%nat eqn:Hlt; [|done].
    apply Nat.ltb_lt in Hlt. lia.
Qed.

Lemma compression_fallback_witness :
  exists o,
    handleShellTool timeout_world
      {| command := u "ls"; cwd := None; compress := Some (JBool true) |}
      empty_disk = Resolved o
    /\ text (reply o)
       = u "[Compression failed: spawnSync /bin/sh ETIMEDOUT]" ++ nl
         ++ u "[Full output: /tmp/compressed-shell-logs/2025-01-01T00-00-00-000Z.log]"
         ++ nl ++ nl ++ u "hello".
Proof.
  destruct (compression_fallback timeout_world
              {| command := u "ls"; cwd := None; compress := Some (JBool true) |}
              empty_disk empty_disk
              {| exitCode := 0; stdout := u "hello"; stderr := [];
                 duration := u "0.01" |})
    as (o & Ho & _ & Hfail & _).
  - vm_compute. reflexivity.
  - vm_compute. reflexivity.
  - vm_compute. reflexivity.
  - exists o. split; [exact Ho|].
    rewrite (Hfail (u "spawnSync /bin/sh ETIMEDOUT")).
    + vm_compute. reflexivity.
    + reflexivity.
    + discriminate.
Defined.

(** ** Tokens and the derived prefix *)

Lemma drop_spaces_starts_clean (s : str) : starts_clean (drop_spaces s).
Proof.
  induction s as [|c s IH]; simpl; [done|].
  destruct (is_space c) eqn:Hc; [done|]. exact Hc.
Qed.

Lemma drop_spaces_id (s : str) : starts_clean s -> drop_spaces s = s.
Proof. destruct s as [|c s]; simpl; [done|]. by intros ->. Qed.

Lemma drop_spaces_suffix (s : str) : exists pre, s = pre ++ drop_spaces s.
Proof.
  induction s as [|c s [pre IH]]; simpl; [by exists []|].
  destruct (is_space c); [|by exists []].
  exists (c :: pre). simpl. by rewrite <- IH.
Qed.

Lemma starts_clean_app (a b : str) : a <> [] -> starts_clean (a ++ b) <-> starts_clean a.
Proof. by destruct a. Qed.

Lemma ends_clean_cons (c : N) (s : str) : s <> [] -> ends_clean (c :: s) -> ends_clean s.
Proof.
  unfold ends_clean. rewrite reverse_cons. intros Hs.
  apply starts_clean_app. intros H. apply Hs.
  by rewrite <- (reverse_involutive s), H.
Qed.

Lemma ends_clean_singleton (c : N) : ends_clean [c] -> is_space c = false.
Proof. done. Qed.

Lemma ends_clean_app (a b : str) : b <> [] -> ends_clean b -> ends_clean (a ++ b).
Proof.
  unfold ends_clean. rewrite reverse_app. intros Hb.
  apply starts_clean_app. intros H. apply Hb.
  by rewrite <- (reverse_involutive b), H.
Qed.

Lemma trim_id (s : str) : starts_clean s -> ends_clean s -> trim s = s.
Proof.
  intros Hs He. unfold trim.
  by rewrite (drop_spaces_id s Hs), (drop_spaces_id _ He), reverse_involutive.
Qed.

Lemma trim_ends_clean (s : str) : ends_clean (trim s).
Proof.
  unfold ends_clean, trim. rewrite reverse_involutive.
  apply drop_spaces_starts_clean.
Qed.

Lemma trim_starts_clean (s : str) : starts_clean (trim s).
Proof.
  unfold trim.
  pose proof (drop_spaces_starts_clean s) as Ha.
  destruct (drop_spaces_suffix (reverse (drop_spaces s))) as [pre Hpre].
  destruct (drop_spaces (reverse (drop_spaces s))) as [|c b] eqn:Hb; [done|].
  apply (f_equal reverse) in Hpre.
  rewrite reverse_involutive, reverse_app in Hpre.
  rewrite Hpre in Ha. apply starts_clean_app in Ha; [done|].
  rewrite reverse_cons. by destruct (reverse b).
Qed.

Lemma trim_idemp (s : str) : trim (trim s) = trim s.
Proof. apply trim_id; [apply trim_starts_clean | apply trim_ends_clean]. Qed.

(** Every piece of the split is free of white space. *)
Lemma split_ws_from_clean (in_ws : bool) (s : str) :
  Forall (Forall (fun c => is_space c = false)) (split_ws_from in_ws s).
Proof.
  revert in_ws. induction s as [|c s IH]; intros in_ws; simpl.
  - repeat constructor.
  - destruct (is_space c) eqn:Hc.
    + destruct in_ws; [apply IH|]. constructor; [constructor | apply IH].
    + specialize (IH false). destruct (split_ws_from false s) as [|w ws].
      * repeat constructor. exact Hc.
      * apply Forall_cons in IH as [Hw Hws]. constructor; [|done].
        by constructor.
Qed.

(** In a string that does not end with white space, every piece after the
    first is a token. *)
Lemma split_ws_from_nonempty (s : str) :
  ends_clean s ->
  (s <> [] -> Forall (fun w => w <> []) (split_ws_from true s))
  /\ Forall (fun w => w <> []) (tail (split_ws_from false s)).
Proof.
  induction s as [|c s IH]; intros He.
  - split; [done|constructor].
  - assert (Hs : is_space c = true -> s <> []).
    { intros Hc ->. apply ends_clean_singleton in He. congruence. }
    assert (IH' : s <> [] ->
                  Forall (fun w => w <> []) (split_ws_from true s)
                  /\ Forall (fun w => w <> []) (tail (split_ws_from false s))).
    { intros Hne. destruct (IH (ends_clean_cons c s Hne He)) as [H1 H2]. auto. }
    assert (Hfalse : Forall (fun w => w <> []) (tail (split_ws_from false s))).
    { destruct s as [|c' s']; [constructor|]. by apply IH'. }
    simpl. destruct (is_space c) eqn:Hc.
    + specialize (IH' (Hs eq_refl)) as [H1 _]. by split.
    + destruct (split_ws_from false s) as [|w ws]; simpl in *.
      * split; [intros _|]; by repeat constructor.
      * split; [intros _; by constructor | done].
Qed.

Lemma clean_starts (w : str) :
  Forall (fun c => is_space c = false) w -> starts_clean w.
Proof. destruct 1; [done|]. done. Qed.

Lemma clean_ends (w : str) :
  Forall (fun c => is_space c = false) w -> ends_clean w.
Proof. intros H. apply clean_starts. by apply Forall_reverse. Qed.

Lemma split_ws_from_cons_clean (c : N) (s : str) :
  is_space c = false ->
  split_ws_from false (c :: s)
  = match split_ws_from false s with
    | w :: ws => (c :: w) :: ws
    | [] => [[c]]
    end.
Proof. intros H. simpl. by rewrite H. Qed.

(** The derived prefix carries no white space at either end: trimming it
    changes nothing. *)
Lemma getCommandPrefix_trimmed (command : str) :
  trim (getCommandPrefix command) = getCommandPrefix command.
Proof.
  unfold getCommandPrefix, words, split_ws.
  pose proof (split_ws_from_clean false (trim command)) as Hclean.
  pose proof (split_ws_from_nonempty (trim command) (trim_ends_clean command))
    as [_ Htail].
  pose proof (trim_starts_clean command) as Hstart.
  destruct (trim command) as [|c t] eqn:Ht; [done|].
  simpl in Hstart.
  rewrite (split_ws_from_cons_clean c t Hstart) in *.
  destruct (split_ws_from false t) as [|w ws].
  { by apply trim_id. }
  destruct ws as [|w1 ws].
  - change (word0 [c :: w]) with (c :: w).
    apply Forall_cons in Hclean as [Hw _].
    apply trim_id; [exact Hstart | by apply clean_ends].
  - apply Forall_cons in Hclean as [_ Hclean].
    apply Forall_cons in Hclean as [Hw1 _].
    apply Forall_cons in Htail as [Hne _].
    rewrite app_assoc.
    apply trim_id; [exact Hstart|].
    apply ends_clean_app; [done | by apply clean_ends].
Qed.


(** ** Permission Mutation API: durable grants *)

#[local] Arguments str_eqb : simpl never.
#[local] Arguments u : simpl never.

Lemma assoc_set_key (k : str) (v : json) (members : list (str * json)) :
  assoc k (set_key k v members) = Some v.
Proof.
  induction members as [|[k' v'] members IH]; simpl.
  - by rewrite str_eqb_refl.
  - destruct (str_eqb k' k) eqn:Hk; simpl; [by rewrite str_eqb_refl|].
    by rewrite Hk.
Qed.

Lemma read_settings_insert (m : gmap str file) (dir : str) (f : file) :
  read_settings (<[dir := f]> m) dir = f.
Proof. unfold read_settings. by rewrite lookup_insert_eq. Qed.


(** What a durable grant does to an extensible settings file. *)
Lemma addToProjectSettings_spec (w : world) (prefix : str) (cwd : option str)
    (m : gmap str file) (rules : list json) :
  let dir := settingsFile w cwd in
  let permission := prefix_rule prefix in
  effective_rules (read_settings m dir) = Some rules ->
  if includes permission rules then
    addToProjectSettings w prefix cwd m = Ret (AlreadyExists, m)
  else
    exists f',
      addToProjectSettings w prefix cwd m = Ret (Added, <[dir := f']> m)
      /\ rule_list f' = Some (rules ++ [JStr permission]).
Proof.
  intros dir permission. unfold addToProjectSettings. fold dir permission.
  destruct (read_settings m dir) as [| t | data]; simpl.
  1,2: intros [= <-]; simpl; eexists; split; reflexivity.
  destruct data as [| b | z | s | items | members]; try done.
  intros Hrules.
  destruct (truthy (assoc (u "permissions") members)) eqn:Hp.
  - destruct (assoc (u "permissions") members)
      as [[| b | z | s | items | perms]|]; try done.
    destruct (truthy (assoc (u "allow") perms)) eqn:Ha.
    + destruct (assoc (u "allow") perms) as [[| b | z | s | items | ms]|];
        try done.
      injection Hrules as ->.
      destruct (includes permission rules); [done|].
      eexists. split; [reflexivity|].
      simpl. by rewrite !assoc_set_key.
    + injection Hrules as <-. rewrite assoc_set_key. simpl.
      eexists. split; [reflexivity|].
      simpl. by rewrite !assoc_set_key.
  - injection Hrules as <-. rewrite assoc_set_key. simpl.
    eexists. split; [reflexivity|].
    simpl. by rewrite !assoc_set_key.
Qed.

Lemma includes_app (rule : str) (a b : list json) :
  includes rule (a ++ b) = includes rule a || includes rule b.
Proof. unfold includes. apply existsb_app. Qed.

Lemma includes_last (rule : str) (rules : list json) :
  includes rule (rules ++ [JStr rule]) = true.
Proof.
  rewrite includes_app. unfold includes at 2. simpl.
  rewrite str_eqb_refl. apply orb_true_r.
Qed.







Lemma rule_list_effective (f : file) (rules : list json) :
  rule_list f = Some rules -> effective_rules f = Some rules.
Proof.
  destruct f as [| t | data]; try done.
  destruct data as [| b | z | s | items | members]; try done.
  simpl.
  destruct (assoc (u "permissions") members) as [[| b | z | s | items | perms]|];
    try done.
  simpl.
  by destruct (assoc (u "allow") perms) as [[| b | z | s | items | ms]|].
Qed.

Lemma filter_includes_false (rule : str) (rules : list json) :
  includes rule rules = false ->
  filter (fun x => is_string rule x = true) rules = [].
Proof.
  unfold includes. induction rules as [|x rules IH]; simpl; [done|].
  intros H. apply orb_false_iff in H as [Hx H].
  rewrite filter_cons_False; [by apply IH|]. by rewrite Hx.
Qed.





(** ** Permission Mutation API: one-time grants *)

(** C4 at a command with trailing white space. The grant stores the trimmed
    text, the resolution looks the untrimmed command up: the command is
    neither safe nor covered by a durable rule, the grant succeeds, and the
    next resolution of the same command is a denial that leaves the record
    in the store. *)
Theorem one_time_grant_lost_on_padded_command :
  isSafeCommand (u "echo hi ") = false
  /\ isCommandAllowed build_world (u "echo hi ") None (settings_store empty_disk)
     = false
  /\ exists r d1,
       handleAllowOnceTool (u "echo hi ") empty_disk = Ret (r, d1)
       /\ isError r = false
       /\ once_list (once_store d1) = Some [JStr (u "echo hi")]
       /\ checkPermission build_world (u "echo hi ") None d1 = (Deny, d1).
Proof.
  split; [reflexivity|]. split; [reflexivity|].
  do 2 eexists. split; [reflexivity|].
  split; [reflexivity|]. split; [reflexivity|].
  vm_compute. reflexivity.
Qed.

Lemma effective_once_includes (f : file) (items : list json) (command : str) :
  effective_once f = Some items -> includes command items = true ->
  once_list f = Some items.
Proof.
  destruct f as [| t | data]; simpl; try (by intros [= <-]).
  destruct data as [| b | z | s | its | members]; try done.
  simpl.
  destruct (assoc (u "commands") members) as [[| b | z | s | its | ms]|];
    simpl; try (by intros [= <-]); try done.
  - by destruct b; [|intros [= <-]].
  - by destruct (negb (z =? 0)%Z); [|intros [= <-]].
  - by destruct (negb (str_eqb s [])); [|intros [= <-]].
Qed.

(** What a one-time grant does to a store file it can extend. *)
Lemma addAllowOnce_spec (command : str) (f : file) (items : list json) :
  effective_once f = Some items ->
  if includes command items then addAllowOnce command f = Ret f
  else
    exists f',
      addAllowOnce command f = Ret f'
      /\ once_list f' = Some (items ++ [JStr command]).
Proof.
  unfold addAllowOnce.
  destruct f as [| t | data]; simpl.
  1,2: intros [= <-]; simpl; eexists; split; reflexivity.
  destruct data as [| b | z | s | its | members]; try done.
  intros Hitems.
  destruct (truthy (assoc (u "commands") members)) eqn:Hc.
  - destruct (assoc (u "commands") members) as [[| b | z | s | its | ms]|];
      try done.
    injection Hitems as ->.
    destruct (includes command items); [done|].
    eexists. split; [reflexivity|]. simpl. by rewrite assoc_set_key.
  - injection Hitems as <-. rewrite assoc_set_key. simpl.
    eexists. split; [reflexivity|]. simpl. by rewrite assoc_set_key.
Qed.


Lemma filter_delete_indexOf (command : str) (items : list json) (index : nat) :
  indexOf command items = Some index ->
  S (length (filter (fun x => is_string command x = true) (delete index items)))
  = length (filter (fun x => is_string command x = true) items).
Proof.
  revert index. induction items as [|x items IH]; intros index; simpl; [done|].
  destruct (is_string command x) eqn:Hx.
  - intros [= <-]. simpl. by rewrite filter_cons_True.
  - destruct (indexOf command items) as [i|] eqn:Hi; [|done].
    intros [= <-]. simpl.
    rewrite !filter_cons_False by (by rewrite Hx). by apply IH.
Qed.



(** * Further properties of the code *)

(** ** Process Execution Service: what is captured *)

Lemma settle_collects (w : world) (pre rest : list proc_event) (e : proc_event)
    (out err : str) :
  Forall is_data pre ->
  settle w (pre ++ e :: rest) out err
  = settle w (e :: rest) (out ++ stdout_of pre) (err ++ stderr_of pre).
Proof.
  intros Hpre. revert out err.
  induction Hpre as [|x pre Hx _ IH]; intros out err; simpl.
  - by rewrite !app_nil_r.
  - destruct x; simpl in Hx; try done; rewrite IH; by rewrite <- app_assoc.
Qed.

(** X1. When the child closes with an exit code, [executeCommand] yields that
    code together with everything the two streams delivered before, each
    stream's chunks concatenated in arrival order; events after the [close]
    play no part. *)
Theorem executeCommand_collects_output (w : world) (command : str)
    (cwd : option str) (pre rest : list proc_event) (code : Z) :
  Forall is_data pre ->
  run w command (projectDir w cwd) = Child (pre ++ Close (Some code) :: rest) ->
  executeCommand w command cwd
  = Resolved {| exitCode := code; stdout := stdout_of pre; stderr := stderr_of pre;
            duration := toFixed2 w (elapsed_ms w) |}.
Proof.
  intros Hpre Hrun. unfold executeCommand.
  by rewrite Hrun, (settle_collects w pre rest _ [] [] Hpre).
Qed.

Lemma executeCommand_collects_output_witness :
  executeCommand interleaved_world (u "make test") None
  = Resolved {| exitCode := 2; stdout := u "cc main.c done";
            stderr := u "warning: unused"; duration := u "0.30" |}.
Proof.
  apply (executeCommand_collects_output interleaved_world (u "make test") None
           [StdoutData (u "cc main.c"); StderrData (u "warning: unused");
            StdoutData (u " done")]
           [StdoutData (u "late")] 2).
  - repeat constructor.
  - reflexivity.
Defined.

Lemma settle_pending (w : world) (events : list proc_event) (out err : str) :
  settle w events out err = None <-> Forall is_data events.
Proof.
  revert out err. induction events as [|e events IH]; intros out err; simpl.
  - split; [constructor|done].
  - destruct e; simpl.
    + rewrite IH. split; [by constructor|]. by intros [_ H]%Forall_cons.
    + rewrite IH. split; [by constructor|]. by intros [_ H]%Forall_cons.
    + split; [done|]. by intros [H _]%Forall_cons.
    + split; [done|]. by intros [H _]%Forall_cons.
Qed.

(** X2. [executeCommand] has no time limit of its own and no guard around
    [spawn]. Its promise stays pending exactly when [spawn] hands back a
    child that delivers neither a [close] nor an [error] event, and it is
    rejected exactly when [spawn] raises, with the exception raised. For an
    allowed command the shell handler shares both fates: it never answers,
    or it is rejected with the same exception. *)
Theorem executeCommand_pending_iff (w : world) (args : shell_args) (d : disk) :
  let spawned := run w (command args) (projectDir w (cwd args)) in
  let silent := exists events, spawned = Child events /\ Forall is_data events in
  (executeCommand w (command args) (cwd args) = Pending <-> silent)
  /\ (forall message,
        executeCommand w (command args) (cwd args) = Rejected message
        <-> spawned = SpawnRaises message)
  /\ (fst (checkPermission w (command args) (cwd args) d) = Allow ->
      (handleShellTool w args d = Pending <-> silent)
      /\ (forall message,
            handleShellTool w args d = Rejected message
            <-> spawned = SpawnRaises message)).
Proof.
  intros spawned silent.
  assert (Hpending : executeCommand w (command args) (cwd args) = Pending
                     <-> silent).
  { unfold executeCommand, silent, spawned.
    destruct (run w (command args) (projectDir w (cwd args)))
      as [message|events].
    - split; [done|]. by intros (events & ? & _).
    - pose proof (settle_pending w events [] []) as Hsettle.
      destruct (settle w events [] []) as [result|].
      + split; [done|]. intros (events' & [= <-] & Hdata).
        by apply Hsettle in Hdata.
      + split; [|done]. intros _. exists events. split; [done|].
        by apply Hsettle. }
  assert (Hrejected : forall message,
             executeCommand w (command args) (cwd args) = Rejected message
             <-> spawned = SpawnRaises message).
  { intros message. unfold executeCommand, spawned.
    destruct (run w (command args) (projectDir w (cwd args)))
      as [message'|events].
    - split; congruence.
    - by destruct (settle w events [] []). }
  split; [exact Hpending|]. split; [exact Hrejected|].
  intros Hperm. unfold handleShellTool.
  destruct (checkPermission w (command args) (cwd args) d) as [verdict d'].
  simpl in Hperm. subst verdict.
  split.
  - rewrite <- Hpending.
    destruct (executeCommand w (command args) (cwd args)) as [result| |];
      [|split; congruence..].
    by destruct (shouldCompress _ _ _).
  - intros message. rewrite <- Hrejected.
    destruct (executeCommand w (command args) (cwd args)) as [result| |];
      [|split; congruence..].
    by destruct (shouldCompress _ _ _).
Qed.

Lemma executeCommand_pending_iff_witness :
  handleShellTool hanging_world
    {| command := u "ls -la"; cwd := None; compress := None |} empty_disk
  = Pending
  /\ handleShellTool node_world
       {| command := nul_command; cwd := Some nul_command; compress := None |}
       empty_disk
     = Rejected NUL_MESSAGE.
Proof.
  split.
  - apply (proj1 (proj2 (proj2 (executeCommand_pending_iff hanging_world
                    {| command := u "ls -la"; cwd := None; compress := None |}
                    empty_disk)) eq_refl)).
    eexists. split; [reflexivity|]. repeat constructor.
  - apply (proj2 (proj2 (proj2 (executeCommand_pending_iff node_world
                    {| command := nul_command; cwd := Some nul_command;
                       compress := None |}
                    empty_disk)) eq_refl)).
    reflexivity.
Defined.

(** ** Tokens *)

Lemma drop_spaces_app (a b : str) :
  drop_spaces (a ++ b)
  = match drop_spaces a with
    | [] => drop_spaces b
    | _ :: _ => drop_spaces a ++ b
    end.
Proof.
  induction a as [|c a IH]; simpl; [done|].
  by destruct (is_space c).
Qed.

Lemma drop_spaces_nil (s : str) :
  drop_spaces s = [] <-> Forall (fun c => is_space c = true) s.
Proof.
  induction s as [|c s IH]; simpl.
  - split; [constructor|done].
  - destruct (is_space c) eqn:Hc.
    + rewrite IH. split; [by constructor|]. by intros [_ H]%Forall_cons.
    + split; [done|]. intros [H _]%Forall_cons. congruence.
Qed.

(** Trimming at the end only, unfolded along the string. *)
Lemma trim_end_cons (c : N) (s : str) :
  reverse (drop_spaces (reverse (c :: s)))
  = match reverse (drop_spaces (reverse s)) with
    | [] => if is_space c then [] else [c]
    | r => c :: r
    end.
Proof.
  rewrite reverse_cons, drop_spaces_app.
  destruct (drop_spaces (reverse s)) as [|x xs] eqn:Hd.
  - simpl. by destruct (is_space c).
  - rewrite reverse_app. simpl.
    destruct (reverse (x :: xs)) as [|y ys] eqn:Hr; [|done].
    apply (f_equal reverse) in Hr. rewrite reverse_involutive in Hr. done.
Qed.

Lemma first_token_trim_end (s : str) :
  first_token (reverse (drop_spaces (reverse s))) = first_token s.
Proof.
  induction s as [|c s IH]; [done|].
  rewrite trim_end_cons. simpl.
  destruct (reverse (drop_spaces (reverse s))) as [|y ys]; simpl in *.
  - destruct (is_space c) eqn:Hc; simpl; [done|]. by rewrite Hc, <- IH.
  - destruct (is_space c); [done|]. by rewrite <- IH.
Qed.

Lemma word0_split_ws (s : str) :
  word0 (split_ws_from false s) = first_token s.
Proof.
  induction s as [|c s IH]; simpl; [done|].
  destruct (is_space c); [done|].
  destruct (split_ws_from false s) as [|w ws]; unfold word0 in *; simpl in *;
    by rewrite <- IH.
Qed.

Lemma first_token_drop_spaces_trim (s : str) :
  first_token (trim s) = first_token (drop_spaces s).
Proof. unfold trim. apply first_token_trim_end. Qed.

(** The first token of a command, as all three classifiers take it, is the
    run of code units between the leading white space and the next white
    space. *)
Lemma word0_words (command : str) :
  word0 (words command) = first_token (drop_spaces command).
Proof.
  unfold words, split_ws.
  by rewrite word0_split_ws, first_token_drop_spaces_trim.
Qed.

Lemma first_token_app_space (a b : str) (c : N) :
  is_space c = true -> first_token (a ++ c :: b) = first_token a.
Proof.
  intros Hc. induction a as [|x a IH]; simpl; [by rewrite Hc|].
  destruct (is_space x); [done|]. by rewrite IH.
Qed.

Lemma word0_words_app (command rest : str) :
  word0 (words command) <> [] ->
  word0 (words (command ++ u " " ++ rest)) = word0 (words command).
Proof.
  rewrite !word0_words, drop_spaces_app.
  destruct (drop_spaces command) as [|c s] eqn:Hd; [done|].
  intros _. by apply first_token_app_space.
Qed.

Lemma trim_nil (s : str) :
  trim s = [] <-> Forall (fun c => is_space c = true) s.
Proof.
  rewrite <- drop_spaces_nil. unfold trim. split.
  - intros H. apply (f_equal reverse) in H. rewrite reverse_involutive in H.
    change (reverse []) with (@nil N) in H.
    apply drop_spaces_nil in H. apply Forall_reverse in H.
    rewrite reverse_involutive in H.
    pose proof (drop_spaces_starts_clean s) as Hs.
    destruct (drop_spaces s) as [|c t]; [done|].
    apply Forall_cons in H as [H _]. simpl in Hs. congruence.
  - intros ->. done.
Qed.

Lemma is_blank_spec (s : str) :
  is_blank s = true <-> Forall (fun c => is_space c = true) s.
Proof.
  unfold is_blank. rewrite orb_true_iff, !str_eqb_eq, trim_nil.
  split; [|by right]. intros [->|H]; [constructor|done].
Qed.

(** ** Validation of the two grant operations *)

(** X3. Both grant handlers reject exactly the inputs that consist of white
    space only (the empty string included): such a request gets the error
    response and leaves both stores untouched, and no other input gets the
    error response. *)
Theorem grant_validation (w : world) (input : str) (cwd : option str) (d : disk) :
  (Forall (fun c => is_space c = true) input ->
   handleAllowOnceTool input d
   = Ret ({| text := u "Error: command is required"; isError := true |}, d)
   /\ handleAllowCommandTool w input cwd d
      = Ret ({| text := u "Error: command_prefix is required"; isError := true |}, d))
  /\ (forall r d1, handleAllowOnceTool input d = Ret (r, d1) -> isError r = true ->
                   Forall (fun c => is_space c = true) input)
  /\ (forall r d1, handleAllowCommandTool w input cwd d = Ret (r, d1) ->
                   isError r = true ->
                   Forall (fun c => is_space c = true) input).
Proof.
  unfold handleAllowOnceTool, handleAllowCommandTool.
  destruct (is_blank input) eqn:Hb.
  - apply is_blank_spec in Hb. by repeat split.
  - split; [|split].
    + intros H. apply is_blank_spec in H. congruence.
    + intros r d1. destruct (addAllowOnce _ _); [|done]. by intros [= <- _].
    + intros r d1. destruct (addToProjectSettings _ _ _ _) as [[[] m]|]; [| |done];
        by intros [= <- _].
Qed.

Lemma grant_validation_witness :
  handleAllowOnceTool (u "   ") granted_disk
  = Ret ({| text := u "Error: command is required"; isError := true |}, granted_disk)
  /\ handleAllowCommandTool build_world (u "   ") None granted_disk
     = Ret ({| text := u "Error: command_prefix is required"; isError := true |},
            granted_disk).
Proof.
  apply (proj1 (grant_validation build_world (u "   ") None granted_disk)).
  repeat constructor.
Defined.

(** ** Classifiers *)

Lemma safe_entries_nonempty : Forall (fun entry => entry <> []) SAFE_COMMANDS.
Proof. apply Forall_forall. intros entry Hin Heq. subst entry.
  apply list_elem_of_In in Hin. vm_compute in Hin.
  repeat (destruct Hin as [Hin|Hin]; [discriminate Hin|]). exact Hin.
Qed.

(** X4. The safe-catalog match looks at the head of the command only: once a
    command matches, it still matches with any text appended after a space,
    operators and further clauses included, and the permission check allows
    it whatever the stores hold. *)
Theorem safe_match_ignores_what_follows (w : world) (command rest : str)
    (cwd : option str) (d : disk) :
  isSafeCommand command = true ->
  isSafeCommand (command ++ u " " ++ rest) = true
  /\ fst (checkPermission w (command ++ u " " ++ rest) cwd d) = Allow.
Proof.
  intros Hsafe.
  assert (H : isSafeCommand (command ++ u " " ++ rest) = true).
  { apply isSafeCommand_spec. apply isSafeCommand_spec in Hsafe.
    destruct Hsafe as (entry & Hin & H). exists entry. split; [done|].
    destruct H as [-> | [[tail ->] | Hw]].
    - right; left. by exists rest.
    - right; left. exists (tail ++ u " " ++ rest). by rewrite <- !app_assoc.
    - right; right. rewrite word0_words_app; [done|]. rewrite Hw.
      pose proof safe_entries_nonempty as Hne.
      rewrite Forall_forall in Hne. by apply Hne. }
  split; [exact H|]. rewrite checkPermission_unfold, H. done.
Qed.

Lemma safe_match_ignores_what_follows_witness :
  isSafeCommand (u "ls" ++ u " " ++ u "-la; rm -rf build") = true
  /\ fst (checkPermission build_world (u "ls" ++ u " " ++ u "-la; rm -rf build")
            None empty_disk) = Allow.
Proof.
  apply (safe_match_ignores_what_follows build_world (u "ls")
           (u "-la; rm -rf build") None empty_disk).
  reflexivity.
Defined.

(** *** The derived prefix is canonical *)

Lemma split_ws_clean_token (w : str) :
  Forall (fun c => is_space c = false) w -> split_ws_from false w = [w].
Proof.
  induction 1 as [|c w Hc _ IH]; simpl; [done|]. by rewrite Hc, IH.
Qed.

Lemma split_ws_true_clean (w : str) :
  w <> [] -> Forall (fun c => is_space c = false) w -> split_ws_from true w = [w].
Proof.
  intros Hne Hw. pose proof (split_ws_clean_token w Hw) as H.
  destruct Hw as [|c w Hc Hw]; [done|]. simpl in *. by rewrite Hc in *.
Qed.

Lemma split_ws_two_tokens (w0 w1 : str) :
  Forall (fun c => is_space c = false) w0 ->
  w1 <> [] -> Forall (fun c => is_space c = false) w1 ->
  split_ws_from false (w0 ++ 32 :: w1) = [w0; w1].
Proof.
  intros H0 Hne H1. induction H0 as [|c w0 Hc _ IH]; simpl.
  - by rewrite split_ws_true_clean.
  - by rewrite Hc, IH.
Qed.

(** X5. The derived prefix is canonical. It is a fixed point of the
    derivation (the prefix of a prefix is that prefix), it carries no white
    space at either end, and it does not depend on the white space around
    the command. What a denial offers for a durable grant is therefore the
    very rule prefix under which the denied command is looked up. *)
Theorem getCommandPrefix_canonical (command : str) :
  getCommandPrefix (getCommandPrefix command) = getCommandPrefix command
  /\ trim (getCommandPrefix command) = getCommandPrefix command
  /\ getCommandPrefix (trim command) = getCommandPrefix command.
Proof.
  split; [|split; [apply getCommandPrefix_trimmed|]].
  2: { unfold getCommandPrefix, words. by rewrite trim_idemp. }
  pose proof (getCommandPrefix_trimmed command) as Htrim.
  unfold getCommandPrefix at 1. unfold words. rewrite Htrim.
  unfold getCommandPrefix, words, split_ws in *.
  pose proof (split_ws_from_clean false (trim command)) as Hclean.
  pose proof (split_ws_from_nonempty (trim command) (trim_ends_clean command))
    as [_ Htail].
  destruct (split_ws_from false (trim command)) as [|w0 [|w1 ws]].
  - done.
  - apply Forall_cons in Hclean as [H0 _].
    change (word0 [w0]) with w0. by rewrite (split_ws_clean_token w0 H0).
  - apply Forall_cons in Hclean as [H0 Hclean].
    apply Forall_cons in Hclean as [H1 _].
    apply Forall_cons in Htail as [Hne _].
    change (w0 ++ u " " ++ w1) with (w0 ++ 32 :: w1).
    by rewrite (split_ws_two_tokens w0 w1 H0 Hne H1).
Qed.

(** *** Splitting on operators *)

Lemma operator_length_semicolon (s : str) : operator_length (59 :: s) = Some 1%nat.
Proof. reflexivity. Qed.

Lemma operator_length_pipe (s : str) : is_Some (operator_length (124 :: s)).
Proof.
  destruct s as [|x s]; [by eexists|].
  destruct x as [|p]; [by eexists|].
  unfold operator_length.
  do 7 (try (destruct p as [p|p|])); by eexists.
Qed.

Lemma operator_length_plain (c : N) (s : str) :
  c <> 38 -> c <> 124 -> c <> 59 -> operator_length (c :: s) = None.
Proof.
  intros H1 H2 H3. unfold operator_length.
  destruct c as [|p]; [done|].
  do 7 (try (destruct p as [p|p|])); done.
Qed.

Lemma match_separator_none_head (c : N) (s : str) :
  match_separator (c :: s) = None -> c <> 59 /\ c <> 124.
Proof.
  intros H. split; intros ->; unfold match_separator in H;
    change (count_spaces (_ :: s)) with 0%nat in H; rewrite drop_0 in H.
  - by rewrite operator_length_semicolon in H.
  - destruct (operator_length_pipe s) as [k Hk]. by rewrite Hk in H.
Qed.

Lemma split_ops_from_no_operator (skip : nat) (s : str) :
  Forall (Forall (fun c => c <> 59 /\ c <> 124)) (split_ops_from skip s).
Proof.
  revert skip. induction s as [|c s IH]; intros skip; simpl.
  - repeat constructor.
  - destruct skip as [|k]; [|apply IH].
    destruct (match_separator (c :: s)) as [n|] eqn:Hm.
    + constructor; [constructor | apply IH].
    + apply match_separator_none_head in Hm.
      specialize (IH O). destruct (split_ops_from 0 s) as [|seg segs].
      * repeat constructor; tauto.
      * apply Forall_cons in IH as [Hseg Hsegs]. constructor; [|done].
        by constructor.
Qed.

Lemma split_ops_nonempty (command : str) : split_ops command <> [].
Proof.
  unfold split_ops. destruct command as [|c s]; simpl; [done|].
  destruct (match_separator (c :: s)); [done|].
  by destruct (split_ops_from 0 s).
Qed.

(** X6. Every semicolon and every pipe character of a command acts as a
    separator: no segment that [isVerboseCommand] inspects contains one, and
    there is always at least one segment. *)
Theorem split_ops_segments_free_of_operators (command : str) :
  split_ops command <> []
  /\ Forall (Forall (fun c => c <> 59 /\ c <> 124)) (split_ops command).
Proof.
  split; [apply split_ops_nonempty | apply split_ops_from_no_operator].
Qed.

Lemma is_plain_spec (c : N) :
  is_plain c = true -> is_space c = false /\ c <> 38 /\ c <> 124 /\ c <> 59.
Proof.
  unfold is_plain. rewrite !andb_true_iff, !negb_true_iff, !N.eqb_neq. tauto.
Qed.

Lemma match_separator_plain (c : N) (s : str) :
  is_plain c = true -> match_separator (c :: s) = None.
Proof.
  intros (Hs & H1 & H2 & H3)%is_plain_spec. unfold match_separator.
  simpl count_spaces. rewrite Hs, drop_0.
  by rewrite operator_length_plain.
Qed.

Lemma count_spaces_app (ws s : str) :
  Forall (fun c => is_space c = true) ws ->
  count_spaces (ws ++ s) = (length ws + count_spaces s)%nat.
Proof. induction 1 as [|c ws Hc _ IH]; simpl; [done|]. by rewrite Hc, IH. Qed.

Lemma match_separator_spaces_plain (ws : str) (c : N) (s : str) :
  Forall (fun c => is_space c = true) ws -> is_plain c = true ->
  match_separator (ws ++ c :: s) = None.
Proof.
  intros Hws Hc. pose proof (is_plain_spec c Hc) as (Hs & H1 & H2 & H3).
  unfold match_separator. rewrite (count_spaces_app ws _ Hws).
  simpl count_spaces. rewrite Hs, Nat.add_0_r, drop_app_length.
  by rewrite operator_length_plain.
Qed.

Lemma head_segment_plain (pre s : str) :
  Forall (fun c => is_plain c = true) pre ->
  word0 (split_ops_from 0 (pre ++ s)) = pre ++ word0 (split_ops_from 0 s).
Proof.
  induction 1 as [|c pre Hc _ IH]; [done|].
  change ((c :: pre) ++ s) with (c :: (pre ++ s)).
  cbn [split_ops_from]. rewrite (match_separator_plain c _ Hc).
  unfold word0 in *. destruct (split_ops_from 0 (pre ++ s)); simpl in *;
    by rewrite <- IH.
Qed.

Lemma head_segment_spaces (ws : str) (c : N) (s : str) :
  Forall (fun c => is_space c = true) ws -> is_plain c = true ->
  word0 (split_ops_from 0 (ws ++ c :: s)) = ws ++ word0 (split_ops_from 0 (c :: s)).
Proof.
  intros Hws Hc. induction Hws as [|x ws Hx Hws IH]; [done|].
  change ((x :: ws) ++ c :: s) with (x :: (ws ++ c :: s)).
  cbn [split_ops_from].
  pose proof (match_separator_spaces_plain (x :: ws) c s
                (Forall_cons_2 _ _ _ Hx Hws) Hc) as Hm.
  change ((x :: ws) ++ c :: s) with (x :: (ws ++ c :: s)) in Hm. rewrite Hm.
  unfold word0 in *. destruct (split_ops_from 0 (ws ++ c :: s)); simpl in *;
    by rewrite <- IH.
Qed.

Lemma head_segment_after_token (s : str) :
  first_token s = [] -> first_token (word0 (split_ops_from 0 s)) = [].
Proof.
  destruct s as [|x s]; [done|]. simpl.
  destruct (is_space x) eqn:Hx; [|done]. intros _.
  destruct (match_separator (x :: s)); [done|].
  destruct (split_ops_from 0 s); unfold word0; simpl; by rewrite Hx.
Qed.

Lemma drop_spaces_split (s : str) :
  exists ws, s = ws ++ drop_spaces s /\ Forall (fun c => is_space c = true) ws.
Proof.
  induction s as [|c s (ws & IH & Hws)]; simpl; [by exists []|].
  destruct (is_space c) eqn:Hc; [|by exists []].
  exists (c :: ws). split; [simpl; by rewrite <- IH | by constructor].
Qed.

Lemma first_token_split (s : str) :
  exists rest, s = first_token s ++ rest /\ first_token rest = [].
Proof.
  induction s as [|c s (rest & IH & Hrest)]; simpl; [by exists []|].
  destruct (is_space c) eqn:Hc.
  - exists (c :: s). split; [done|]. simpl. by rewrite Hc.
  - exists rest. split; [simpl; by rewrite <- IH | done].
Qed.

Lemma first_token_clean_app (pre s : str) :
  Forall (fun c => is_space c = false) pre ->
  first_token (pre ++ s) = pre ++ first_token s.
Proof. induction 1 as [|c pre Hc _ IH]; simpl; [done|]. by rewrite Hc, IH. Qed.

Lemma drop_spaces_spaces_app (ws s : str) :
  Forall (fun c => is_space c = true) ws -> drop_spaces (ws ++ s) = drop_spaces s.
Proof. induction 1 as [|c ws Hc _ IH]; simpl; [done|]. by rewrite Hc. Qed.

Lemma existsb_head {A : Type} (f : A -> bool) (x : A) (l : list A) :
  f x = true -> existsb f (x :: l) = true.
Proof. intros H. simpl. by rewrite H. Qed.

Lemma verbose_v1_entries :
  forall vc, In vc VERBOSE_COMMANDS_v1 ->
    In vc VERBOSE_COMMANDS /\ vc <> []
    /\ Forall (fun c => is_plain c = true) (vc ++ u "-").
Proof.
  assert (H : forallb (fun vc => bool_decide (In vc VERBOSE_COMMANDS)
                                 && negb (str_eqb vc [])
                                 && forallb is_plain (vc ++ u "-"))
                      VERBOSE_COMMANDS_v1 = true) by (vm_compute; reflexivity).
  rewrite forallb_forall in H. intros vc Hin. specialize (H vc Hin).
  apply andb_true_iff in H as [H H3]. apply andb_true_iff in H as [H1 H2].
  apply bool_decide_eq_true in H1. apply negb_true_iff, str_eqb_neq in H2.
  split; [done|]. split; [done|].
  apply Forall_forall. intros c Hc. rewrite forallb_forall in H3.
  apply H3. by apply list_elem_of_In.
Qed.

(** The first token of the first segment, for a command whose text after
    the leading white space begins with plain code units. *)
Lemma head_segment_first_word (command pre rest : str) :
  pre <> [] -> Forall (fun c => is_plain c = true) pre ->
  drop_spaces command = pre ++ rest ->
  word0 (words (word0 (split_ops command)))
  = pre ++ first_token (word0 (split_ops_from 0 rest)).
Proof.
  intros Hne Hpre Hdrop.
  destruct (drop_spaces_split command) as (ws & Hc & Hws).
  rewrite Hdrop in Hc. unfold split_ops. rewrite Hc at 1.
  assert (Hclean : Forall (fun c => is_space c = false) pre).
  { eapply Forall_impl; [exact Hpre|]. by intros c [? _]%is_plain_spec. }
  destruct pre as [|p pre]; [done|].
  apply Forall_cons in Hpre as Hpre'. destruct Hpre' as [Hp _].
  change ((p :: pre) ++ rest) with (p :: (pre ++ rest)).
  rewrite (head_segment_spaces ws p _ Hws Hp).
  change (p :: (pre ++ rest)) with ((p :: pre) ++ rest).
  rewrite (head_segment_plain (p :: pre) rest Hpre).
  rewrite word0_words, (drop_spaces_spaces_app ws _ Hws).
  assert (Hp' : is_space p = false) by (by apply is_plain_spec in Hp as [? _]).
  rewrite drop_spaces_id by exact Hp'.
  by apply first_token_clean_app.
Qed.

(** X7. The current verbose classification extends the one of the first
    version of the server: a command whose first token the old first-token
    test accepts is verbose-classified by the segment-wise test as well. *)
Theorem isVerboseCommand_extends_v1 (command : str) :
  isVerboseCommand_v1 command = true -> isVerboseCommand command = true.
Proof.
  unfold isVerboseCommand_v1. rewrite existsb_exists, word0_words.
  intros (vc & Hin & Hvc).
  destruct (verbose_v1_entries vc Hin) as (Hin' & Hne & Hplain).
  destruct (first_token_split (drop_spaces command)) as (rest & Hsplit & Hrest).
  assert (Hfirst : exists first,
             word0 (words (word0 (split_ops command))) = first
             /\ (first = vc \/ exists tail, first = (vc ++ u "-") ++ tail)).
  { apply orb_true_iff in Hvc as [Heq | Hpre].
    - apply str_eqb_eq in Heq. rewrite Heq in Hsplit.
      eexists. split.
      + apply (head_segment_first_word command vc rest Hne); [|done].
        by apply Forall_app in Hplain as [? _].
      + left. by rewrite (head_segment_after_token rest Hrest), app_nil_r.
    - apply startsWith_spec in Hpre as [tail Htail].
      rewrite Htail, <- app_assoc in Hsplit.
      eexists. split.
      + apply (head_segment_first_word command (vc ++ u "-") (tail ++ rest));
          [by destruct vc | done | done].
      + right. by eexists. }
  destruct Hfirst as (first & Hw & Hfirst).
  unfold isVerboseCommand.
  pose proof (split_ops_nonempty command) as Hnonempty.
  destruct (split_ops command) as [|seg segs]; [done|].
  apply existsb_head. change (word0 (seg :: segs)) with seg in Hw.
  apply existsb_exists. exists vc. split; [done|]. rewrite Hw.
  apply orb_true_iff. destruct Hfirst as [-> | [tail ->]].
  - left. apply str_eqb_refl.
  - right. apply startsWith_app.
Qed.

Lemma isVerboseCommand_extends_v1_witness :
  isVerboseCommand (u "  docker-compose up -d && echo ok") = true.
Proof.
  apply (isVerboseCommand_extends_v1 (u "  docker-compose up -d && echo ok")).
  reflexivity.
Defined.

(** ** One-time permissions *)



Lemma once_list_effective (f : file) (items : list json) :
  once_list f = Some items -> effective_once f = Some items.
Proof.
  destruct f as [| t | data]; try done.
  destruct data as [| b | z | s | its | members]; try done.
  simpl.
  by destruct (assoc (u "commands") members) as [[| b | z | s | its | ms]|].
Qed.

(** X9. One-time grants are idempotent and append-only. On a store that a
    grant can extend, [allow_once] leaves the records already there in
    place and in order, adds the trimmed command at the end unless it is
    already recorded, and a second identical call changes nothing; the
    durable store is not touched. *)
Theorem one_time_grant_idempotent (C : str) (d : disk) (items : list json) :
  is_blank C = false ->
  effective_once (once_store d) = Some items ->
  exists r1 d1 r2,
    handleAllowOnceTool C d = Ret (r1, d1)
    /\ handleAllowOnceTool C d1 = Ret (r2, d1)
    /\ once_list (once_store d1)
       = Some (if includes (trim C) items then items
               else items ++ [JStr (trim C)])
    /\ settings_store d1 = settings_store d.
Proof.
  intros Hblank Hitems. unfold handleAllowOnceTool. rewrite Hblank.
  pose proof (addAllowOnce_spec (trim C) (once_store d) items Hitems) as Hadd.
  destruct (includes (trim C) items) eqn:Hin.
  - eexists _, {| once_store := once_store d; settings_store := settings_store d |}, _.
    simpl. rewrite Hadd.
    split; [reflexivity|]. split; [reflexivity|]. split; [|reflexivity].
    by apply (effective_once_includes _ _ (trim C)).
  - destruct Hadd as (f' & Hadd & Hf').
    pose proof (addAllowOnce_spec (trim C) f' (items ++ [JStr (trim C)])
                  (once_list_effective _ _ Hf')) as Hadd2.
    rewrite includes_last in Hadd2.
    eexists _, {| once_store := f'; settings_store := settings_store d |}, _.
    simpl. rewrite Hadd, Hadd2.
    split; [reflexivity|]. split; [reflexivity|]. by split.
Qed.

Lemma one_time_grant_idempotent_witness :
  exists r1 d1 r2,
    handleAllowOnceTool (u " make build ") granted_disk = Ret (r1, d1)
    /\ handleAllowOnceTool (u " make build ") d1 = Ret (r2, d1)
    /\ once_list (once_store d1)
       = Some [JStr (u "ls"); JStr (u "make build")]
    /\ settings_store d1 = settings_store granted_disk.
Proof.
  apply (one_time_grant_idempotent (u " make build ") granted_disk [JStr (u "ls")]).
  - reflexivity.
  - reflexivity.
Defined.

Lemma filter_delete_other (C c' : str) (items : list json) (index : nat) :
  c' <> C -> indexOf C items = Some index ->
  filter (fun x => is_string c' x = true) (delete index items)
  = filter (fun x => is_string c' x = true) items.
Proof.
  intros Hne. revert index.
  induction items as [|x items IH]; intros index; simpl; [done|].
  destruct (is_string C x) eqn:Hx.
  - intros [= <-]. simpl.
    destruct x as [| | | s | |]; try done. apply str_eqb_eq in Hx as ->.
    rewrite filter_cons_False; [done|]. simpl. intros H.
    apply str_eqb_eq in H. congruence.
  - destruct (indexOf C items) as [i|] eqn:Hi; [|done].
    intros [= <-]. simpl.
    destruct (is_string c' x) eqn:Hx'.
    + rewrite !filter_cons_True by done. by rewrite (IH i).
    + rewrite !filter_cons_False by (by rewrite Hx'). by apply IH.
Qed.

(** X10. A one-time hit consumes exactly one record. When the lookup of a
    command answers yes, the store held the command, it is rewritten
    without the first such record, the command is recorded one time less,
    and the records of every other command are all kept. *)
Theorem one_time_hit_consumes_one_record (C : str) (f f' : file) :
  isAllowedOnce C f = (true, f') ->
  exists items index,
    once_list f = Some items
    /\ indexOf C items = Some index
    /\ once_list f' = Some (delete index items)
    /\ count_record C f = S (count_record C f')
    /\ forall c', c' <> C -> count_record c' f' = count_record c' f.
Proof.
  intros Hhit.
  destruct (once_list f) as [items|] eqn:Hl.
  2: { rewrite (isAllowedOnce_malformed _ _ Hl) in Hhit. done. }
  rewrite (isAllowedOnce_list _ _ _ Hl) in Hhit.
  destruct (indexOf C items) as [index|] eqn:Hi; [|done].
  injection Hhit as <-. exists items, index.
  split; [done|]. split; [done|]. split; [reflexivity|].
  unfold count_record. rewrite Hl. simpl. split.
  - symmetry. by apply filter_delete_indexOf.
  - intros c' Hne. by rewrite (filter_delete_other C c' items index).
Qed.

Lemma one_time_hit_consumes_one_record_witness :
  exists items index,
    once_list twice_granted = Some items
    /\ indexOf (u "make") items = Some index
    /\ once_list (snd (isAllowedOnce (u "make") twice_granted))
       = Some (delete index items)
    /\ count_record (u "make") twice_granted
       = S (count_record (u "make") (snd (isAllowedOnce (u "make") twice_granted)))
    /\ forall c', c' <> u "make" ->
         count_record c' (snd (isAllowedOnce (u "make") twice_granted))
         = count_record c' twice_granted.
Proof.
  apply (one_time_hit_consumes_one_record (u "make") twice_granted).
  reflexivity.
Defined.

(** ** Durable rules *)

Lemma isCommandAllowed_effective (w : world) (command : str) (cwd : option str)
    (m : gmap str file) (rules : list json) :
  effective_rules (read_settings m (settingsFile w cwd)) = Some rules ->
  isCommandAllowed w command cwd m = scan_rules command rules.
Proof.
  unfold isCommandAllowed.
  destruct (read_settings m (settingsFile w cwd)) as [| t | data]; simpl;
    try (by intros [= <-]).
  destruct data as [| b | z | s | items | members]; try done.
  simpl.
  destruct (assoc (u "permissions") members) as [[| b | z | s | items | perms]|];
    simpl; try (by intros [= <-]); try done.
  - by destruct b; [|intros [= <-]].
  - by destruct (negb (z =? 0)%Z); [|intros [= <-]].
  - by destruct (negb (str_eqb s [])); [|intros [= <-]].
  - destruct (assoc (u "allow") perms) as [[| b | z | s | items | ms]|];
      simpl; try (by intros [= <-]); try done.
    + by destruct b; [|intros [= <-]].
    + by destruct (negb (z =? 0)%Z); [|intros [= <-]].
    + by destruct (negb (str_eqb s [])); [|intros [= <-]].
Qed.

Lemma scan_rules_cons (command rule : str) (rest : list json) :
  scan_rules command (JStr rule :: rest)
  = rule_matches command rule || scan_rules command rest.
Proof.
  simpl. unfold rule_matches.
  destruct (str_eqb rule (exact_rule command)); [done|].
  destruct (str_eqb rule (prefix_rule (getCommandPrefix command))); [done|].
  destruct (str_eqb rule (prefix_rule (word0 (words command)))); [done|].
  simpl. destruct (bash_match rule) as [bashPrefix|]; [|done].
  by destruct (_ || _).
Qed.

Lemma scan_rules_app (command : str) (pre rest : list json) :
  forallb is_str pre = true ->
  scan_rules command (pre ++ rest)
  = scan_rules command pre || scan_rules command rest.
Proof.
  induction pre as [|x pre IH]; [done|].
  intros [Hx Hpre]%andb_true_iff. destruct x as [| | | rule | |]; try done.
  change ((JStr rule :: pre) ++ rest) with (JStr rule :: (pre ++ rest)).
  by rewrite !scan_rules_cons, (IH Hpre), orb_assoc.
Qed.

Lemma scan_rules_member (command rule : str) (rules : list json) :
  forallb is_str rules = true -> JStr rule ∈ rules ->
  rule_matches command rule = true -> scan_rules command rules = true.
Proof.
  intros Hstr Hin Hm. apply list_elem_of_split in Hin as (pre & rest & ->).
  rewrite forallb_app in Hstr. apply andb_true_iff in Hstr as [Hpre _].
  rewrite (scan_rules_app _ _ _ Hpre), scan_rules_cons, Hm.
  by rewrite orb_true_r.
Qed.

Lemma bash_match_tool_rule (x : str) : bash_match (TOOL_RULE ++ x) = None.
Proof. reflexivity. Qed.

Lemma includes_elem_of (rule : str) (rules : list json) :
  includes rule rules = true <-> JStr rule ∈ rules.
Proof.
  unfold includes. rewrite existsb_exists. split.
  - intros (x & Hin & Hx). destruct x as [| | | s | |]; try done.
    apply str_eqb_eq in Hx as ->. by apply list_elem_of_In.
  - intros Hin. exists (JStr rule). split; [by apply list_elem_of_In|].
    apply str_eqb_refl.
Qed.

(** Which commands the prefix rule of [P] lets through. *)
Lemma rule_matches_prefix_rule (command P : str) :
  rule_matches command (prefix_rule P) = true
  <-> getCommandPrefix command = P \/ word0 (words command) = P
      \/ command = P ++ u " *".
Proof.
  unfold rule_matches.
  assert (Hb : bash_match (prefix_rule P) = None) by apply bash_match_tool_rule.
  rewrite Hb, orb_false_r, !orb_true_iff, !str_eqb_eq.
  unfold prefix_rule, exact_rule.
  assert (Hinj : forall a b : str, TOOL_RULE ++ a ++ u " *)" = TOOL_RULE ++ b ++ u " *)"
                                   <-> b = a).
  { intros a b. split; [|by intros ->].
    intros H. apply app_inv_head, app_inv_tail in H. done. }
  rewrite !Hinj.
  assert (Hex : TOOL_RULE ++ P ++ u " *)" = TOOL_RULE ++ command ++ u ")"
                <-> command = P ++ u " *").
  { split.
    - intros H. apply app_inv_head in H.
      change (u " *)") with (u " *" ++ u ")") in H.
      rewrite app_assoc in H. by apply app_inv_tail in H.
    - intros ->. by rewrite <- !app_assoc. }
  rewrite Hex. tauto.
Qed.

(** X11. What a durable grant allows. After [allow_command] with the prefix
    P in a project whose settings file is well formed, the durable lookup in
    that project lets through exactly what it let through before together
    with the commands whose derived prefix is the trimmed P, whose first
    token is the trimmed P, or that are the trimmed P followed by a space
    and a star. Nothing that was allowed is lost. *)
Theorem durable_grant_exact (w : world) (P : str) (cwd : option str) (d : disk) :
  is_blank P = false ->
  settings_well_formed (read_settings (settings_store d) (settingsFile w cwd)) = true ->
  exists r d1,
    handleAllowCommandTool w P cwd d = Ret (r, d1)
    /\ isError r = false
    /\ forall c,
         isCommandAllowed w c cwd (settings_store d1) = true
         <-> isCommandAllowed w c cwd (settings_store d) = true
             \/ getCommandPrefix c = trim P
             \/ word0 (words c) = trim P
             \/ c = trim P ++ u " *".
Proof.
  intros Hblank Hwf. unfold handleAllowCommandTool. rewrite Hblank.
  unfold settings_well_formed in Hwf.
  destruct (effective_rules _) as [rules|] eqn:Hrules; [|done].
  pose proof (addToProjectSettings_spec w (trim P) cwd (settings_store d) rules
                Hrules) as Hadd. simpl in Hadd.
  destruct (includes (prefix_rule (trim P)) rules) eqn:Hin.
  - rewrite Hadd. do 2 eexists. split; [reflexivity|]. split; [reflexivity|].
    intros c. simpl. split; [by left|].
    intros [H | H]; [done|].
    rewrite (isCommandAllowed_effective _ _ _ _ _ Hrules).
    apply (scan_rules_member c (prefix_rule (trim P))); [done| |].
    + by apply includes_elem_of.
    + by apply rule_matches_prefix_rule.
  - destruct Hadd as (f' & -> & Hf'). do 2 eexists.
    split; [reflexivity|]. split; [reflexivity|].
    intros c. simpl.
    rewrite (isCommandAllowed_effective _ _ _ _ _ Hrules).
    rewrite (isCommandAllowed_list w c cwd _ (rules ++ [JStr (prefix_rule (trim P))]))
      by (by rewrite read_settings_insert).
    rewrite (scan_rules_app _ _ _ Hwf), scan_rules_cons, orb_false_r.
    by rewrite orb_true_iff, rule_matches_prefix_rule.
Qed.

Lemma durable_grant_exact_witness :
  exists r d1,
    handleAllowCommandTool build_world (u "npm") None granted_disk = Ret (r, d1)
    /\ isError r = false
    /\ forall c,
         isCommandAllowed build_world c None (settings_store d1) = true
         <-> isCommandAllowed build_world c None (settings_store granted_disk) = true
             \/ getCommandPrefix c = trim (u "npm")
             \/ word0 (words c) = trim (u "npm")
             \/ c = trim (u "npm") ++ u " *".
Proof.
  apply (durable_grant_exact build_world (u "npm") None granted_disk).
  - reflexivity.
  - reflexivity.
Defined.

Lemma addToProjectSettings_frame (w : world) (P : str) (cwd : option str)
    (m m' : gmap str file) (g : grant) (file' : str) :
  addToProjectSettings w P cwd m = Ret (g, m') ->
  file' <> settingsFile w cwd -> m' !! file' = m !! file'.
Proof.
  unfold addToProjectSettings. intros H Hne.
  repeat case_match; simplify_eq; try done; by rewrite lookup_insert_ne.
Qed.

(** X12. A durable grant is scoped to the settings file of its project.
    Whenever [allow_command] returns, the one-time store is as before; for
    a working directory whose settings file is another file, that file and
    the answer of the durable lookup are unchanged; and a working directory
    that names the same settings file (another spelling of the project
    directory) gets the same answers as the directory of the grant. *)
Theorem durable_grant_scoped (w : world) (P : str) (cwd cwd' : option str)
    (d d1 : disk) (r : response) :
  handleAllowCommandTool w P cwd d = Ret (r, d1) ->
  once_store d1 = once_store d
  /\ (settingsFile w cwd' <> settingsFile w cwd ->
      read_settings (settings_store d1) (settingsFile w cwd')
      = read_settings (settings_store d) (settingsFile w cwd')
      /\ forall c, isCommandAllowed w c cwd' (settings_store d1)
                   = isCommandAllowed w c cwd' (settings_store d))
  /\ (settingsFile w cwd' = settingsFile w cwd ->
      forall c, isCommandAllowed w c cwd' (settings_store d1)
                = isCommandAllowed w c cwd (settings_store d1)).
Proof.
  unfold handleAllowCommandTool. intros H.
  split; [|split].
  - destruct (is_blank P); [by injection H as _ <-|].
    destruct (addToProjectSettings w (trim P) cwd (settings_store d))
      as [[g m]|]; [|done].
    by destruct g; injection H as _ <-.
  - intros Hne.
    assert (Hm : settings_store d1 !! settingsFile w cwd'
                 = settings_store d !! settingsFile w cwd').
    { destruct (is_blank P); [by injection H as _ <-|].
      destruct (addToProjectSettings w (trim P) cwd (settings_store d))
        as [[g m]|] eqn:Hadd; [|done].
      pose proof (addToProjectSettings_frame _ _ _ _ _ _ _ Hadd Hne) as Hm.
      by destruct g; injection H as _ <-. }
    unfold isCommandAllowed, read_settings. by rewrite Hm.
  - intros Hsame c. unfold isCommandAllowed. by rewrite Hsame.
Qed.

Lemma durable_grant_scoped_witness :
  once_store (snd scoped_grant) = once_store granted_disk
  /\ (forall c,
        isCommandAllowed build_world c None (settings_store (snd scoped_grant))
        = isCommandAllowed build_world c None (settings_store granted_disk))
  /\ isCommandAllowed build_world (u "docker build .") (Some (u "/srv/other"))
       (settings_store (snd scoped_grant))
     = true.
Proof.
  assert (Hgrant : handleAllowCommandTool build_world (u "docker build")
                     (Some (u "/srv/other/")) granted_disk
                   = Ret (fst scoped_grant, snd scoped_grant))
    by (vm_compute; reflexivity).
  destruct (durable_grant_scoped build_world (u "docker build")
              (Some (u "/srv/other/")) None granted_disk (snd scoped_grant)
              (fst scoped_grant) Hgrant) as (Honce & Hother & _).
  destruct (durable_grant_scoped build_world (u "docker build")
              (Some (u "/srv/other/")) (Some (u "/srv/other")) granted_disk
              (snd scoped_grant) (fst scoped_grant) Hgrant) as (_ & _ & Hsame).
  split; [exact Honce|]. split.
  - apply Hother. vm_compute. discriminate.
  - rewrite Hsame by (vm_compute; reflexivity). vm_compute. reflexivity.
Defined.

(** *** Rules written for the Bash tool *)

Lemma suffix_rule_alone (mid : str) : mid ++ u ":*)" = u ":*)" -> mid = [].
Proof.
  intros H. apply (f_equal length) in H. rewrite length_app in H.
  destruct mid; [done|]. simpl in H. lia.
Qed.

Lemma bash_group_spec (taken rest g : str) :
  bash_group taken rest = Some g
  <-> exists mid,
        mid <> [] /\ Forall (fun c => is_line_terminator c = false) mid
        /\ rest = mid ++ u ":*)" /\ g = taken ++ mid.
Proof.
  split.
  - revert taken. induction rest as [|c rest IH]; intros taken; simpl; [done|].
    destruct (is_line_terminator c) eqn:Hc; [done|].
    destruct (str_eqb rest (u ":*)")) eqn:Hr.
    + intros [= <-]. apply str_eqb_eq in Hr as ->.
      exists [c]. by repeat split; [|constructor|..].
    + intros (mid & Hne & Hmid & -> & ->)%IH.
      exists (c :: mid). repeat split; [done|by constructor|].
      by rewrite <- app_assoc.
  - intros (mid & Hne & Hmid & -> & ->). revert taken.
    induction Hmid as [|c mid Hc Hmid IH]; intros taken; [done|].
    simpl. rewrite Hc.
    destruct (str_eqb (mid ++ u ":*)") (u ":*)")) eqn:Hr.
    + apply str_eqb_eq, suffix_rule_alone in Hr as ->. done.
    + assert (Hmid' : mid <> []).
      { intros ->. by rewrite str_eqb_refl in Hr. }
      rewrite (IH Hmid'). by rewrite <- app_assoc.
Qed.

(** X13. The pattern for rules of the Bash tool, read both ways: a rule
    matches [/^Bash\((.+?):\*\)$/] with captured prefix P exactly when it is
    the text [Bash(] followed by P and by a colon, a star and a closing
    parenthesis, where P is not empty and holds no line terminator. *)
Theorem bash_match_spec (rule P : str) :
  bash_match rule = Some P
  <-> rule = u "Bash(" ++ P ++ u ":*)" /\ P <> []
      /\ Forall (fun c => is_line_terminator c = false) P.
Proof.
  unfold bash_match. split.
  - destruct (startsWith rule (u "Bash(")) eqn:Hs; [|done].
    apply startsWith_spec in Hs as [rest ->].
    change (drop 5 (u "Bash(" ++ rest)) with rest.
    intros (mid & Hne & Hmid & -> & ->)%bash_group_spec. done.
  - intros (-> & Hne & HP). rewrite startsWith_app.
    change (drop 5 (u "Bash(" ++ P ++ u ":*)")) with (P ++ u ":*)").
    apply bash_group_spec. by exists P.
Qed.

(** X14. Rules already granted to the Bash tool are honoured. If the
    well-formed rule list of the project holds the rule of the Bash tool for
    a prefix P (not empty, without line terminator), every command that is
    P or P followed by a space and anything passes the durable lookup. *)
Theorem bash_rule_honoured (w : world) (c P : str) (cwd : option str)
    (m : gmap str file) (rules : list json) :
  rule_list (read_settings m (settingsFile w cwd)) = Some rules ->
  forallb is_str rules = true ->
  JStr (u "Bash(" ++ P ++ u ":*)") ∈ rules ->
  P <> [] -> Forall (fun x => is_line_terminator x = false) P ->
  (c = P \/ exists rest, c = P ++ u " " ++ rest) ->
  isCommandAllowed w c cwd m = true.
Proof.
  intros Hlist Hstr Hin Hne HP Hc.
  rewrite (isCommandAllowed_list _ _ _ _ _ Hlist).
  apply (scan_rules_member c (u "Bash(" ++ P ++ u ":*)")); [done|done|].
  unfold rule_matches.
  assert (Hb : bash_match (u "Bash(" ++ P ++ u ":*)") = Some P).
  { unfold bash_match. rewrite startsWith_app.
    change (drop 5 (u "Bash(" ++ P ++ u ":*)")) with (P ++ u ":*)").
    apply bash_group_spec. by exists P. }
  rewrite Hb. apply orb_true_iff. right. apply orb_true_iff.
  destruct Hc as [-> | [rest ->]].
  - left. apply str_eqb_refl.
  - right. rewrite app_assoc. apply startsWith_app.
Qed.

Lemma bash_rule_honoured_witness :
  isCommandAllowed build_world (u "pnpm exec tsc --noEmit") None
    (settings_store bash_rules_disk) = true.
Proof.
  apply (bash_rule_honoured build_world (u "pnpm exec tsc --noEmit")
           (u "pnpm exec tsc") None (settings_store bash_rules_disk)
           [JStr (u "Bash(npm install:*)"); JStr (u "Bash(pnpm exec tsc:*)")]).
  - reflexivity.
  - reflexivity.
  - apply list_elem_of_further, list_elem_of_here.
  - vm_compute. discriminate.
  - vm_compute. repeat constructor.
  - right. exists (u "--noEmit"). reflexivity.
Defined.

Lemma scan_rules_blocked (c : str) (pre rest : list json) (x : json) :
  is_str x = false -> scan_rules c (pre ++ x :: rest) = scan_rules c pre.
Proof.
  intros Hx. induction pre as [|y pre IH].
  - by destruct x.
  - destruct y as [| | | rule | |]; try done.
    change ((JStr rule :: pre) ++ x :: rest) with (JStr rule :: (pre ++ x :: rest)).
    by rewrite !scan_rules_cons, IH.
Qed.

(** X15. A rule that is not a string ends the durable lookup. If the rule
    list of the project holds such an entry, only the rules before it
    count: the rules after it are never reached, and neither is a rule that
    a later [allow_command] appends. *)
Theorem non_string_rule_blocks_later_rules (w : world) (c : str)
    (cwd : option str) (m : gmap str file) (pre rest : list json) (x : json) :
  rule_list (read_settings m (settingsFile w cwd)) = Some (pre ++ x :: rest) ->
  is_str x = false ->
  isCommandAllowed w c cwd m = scan_rules c pre
  /\ forall P, exists g m',
       addToProjectSettings w P cwd m = Ret (g, m')
       /\ isCommandAllowed w c cwd m' = scan_rules c pre.
Proof.
  intros Hlist Hx.
  assert (Hbefore : isCommandAllowed w c cwd m = scan_rules c pre).
  { by rewrite (isCommandAllowed_list _ _ _ _ _ Hlist), scan_rules_blocked. }
  split; [exact Hbefore|]. intros P.
  pose proof (addToProjectSettings_spec w P cwd m _ (rule_list_effective _ _ Hlist))
    as Hadd. simpl in Hadd.
  destruct (includes (prefix_rule P) (pre ++ x :: rest)).
  - by exists AlreadyExists, m.
  - destruct Hadd as (f' & Hadd & Hf'). exists Added. eexists.
    split; [exact Hadd|].
    rewrite (isCommandAllowed_list w c cwd _ _
               ltac:(by rewrite read_settings_insert)).
    rewrite <- app_assoc. change ((x :: rest) ++ ?l) with (x :: (rest ++ l)).
    by apply scan_rules_blocked.
Qed.

Lemma non_string_rule_blocks_later_rules_witness :
  isCommandAllowed build_world (u "npm install lodash") None
    (settings_store blocked_disk) = false
  /\ exists g m',
       addToProjectSettings build_world (u "npm install") None
         (settings_store blocked_disk) = Ret (g, m')
       /\ isCommandAllowed build_world (u "npm install lodash") None m' = false.
Proof.
  destruct (non_string_rule_blocks_later_rules build_world (u "npm install lodash")
              None (settings_store blocked_disk) [JStr (u "Bash(ls:*)")]
              [JStr (prefix_rule (u "npm install"))] JNull)
    as [Hbefore Hafter].
  - reflexivity.
  - reflexivity.
  - split; [exact Hbefore|]. exact (Hafter (u "npm install")).
Defined.

(** ** The shell handler: what reaches the caller *)

Lemma failure_text_suffix (error logFile fullOutput : str) :
  fullOutput `suffix_of` failure_text error logFile fullOutput.
Proof.
  unfold failure_text. rewrite !app_assoc. by eexists.
Qed.

(** X16. The output of an executed command is never lost. Whatever the
    compress flag, the command and the oracle do, the reply either ends with
    the complete combined output, or it is the banner of a successful
    compression that names the artifact, and the complete combined output
    was written to that artifact. *)
Theorem output_never_lost (w : world) (args : shell_args) (d d' : disk)
    (result : ExecutionResult) :
  let fullOutput := fullOutput_of result in
  let lineCount := length (split_nl fullOutput) in
  let logFile := join (LOG_DIR w) (timestamp w ++ u ".log") in
  checkPermission w (command args) (cwd args) d = (Allow, d') ->
  executeCommand w (command args) (cwd args) = Resolved result ->
  exists o,
    handleShellTool w args d = Resolved o
    /\ (fullOutput `suffix_of` text (reply o)
        \/ (exists compressed,
              text (reply o) = success_text lineCount result logFile compressed)
           /\ WroteLog logFile fullOutput ∈ trace o).
Proof.
  intros fullOutput lineCount logFile Hperm Hexec.
  rewrite (handleShellTool_allowed w args d d' result Hperm Hexec).
  fold fullOutput lineCount logFile.
  eexists. split; [reflexivity|].
  destruct (shouldCompress _ _ _); simpl; [|by left].
  destruct (compressWithHaiku w fullOutput (command args) (exitCode result))
    as [s | error]; simpl.
  - destruct (10 <? length s)%nat; [|by left].
    right. split; [by eexists|].
    apply list_elem_of_further, list_elem_of_here.
  - left. destruct (negb (str_eqb error [])); [|done].
    apply failure_text_suffix.
Qed.

Lemma output_never_lost_witness :
  exists o,
    handleShellTool build_world
      {| command := u "npm install"; cwd := None; compress := Some (JBool true) |}
      granted_disk = Resolved o
    /\ (u "added 1 package" `suffix_of` text (reply o)
        \/ (exists compressed,
              text (reply o)
              = success_text 1
                  {| exitCode := 0; stdout := u "added 1 package"; stderr := [];
                     duration := u "2.00" |}
                  (u "/tmp/compressed-shell-logs/2025-01-01T00-00-00-000Z.log")
                  compressed)
           /\ WroteLog (u "/tmp/compressed-shell-logs/2025-01-01T00-00-00-000Z.log")
                (u "added 1 package") ∈ trace o).
Proof.
  apply (output_never_lost build_world
           {| command := u "npm install"; cwd := None; compress := Some (JBool true) |}
           granted_disk granted_disk
           {| exitCode := 0; stdout := u "added 1 package"; stderr := [];
              duration := u "2.00" |}).
  - vm_compute. reflexivity.
  - vm_compute. reflexivity.
Defined.

Lemma split_nl_count (s : str) :
  length (split_nl s) = S (length (filter (fun c => c = 10) s)).
Proof.
  induction s as [|c s IH]; [done|].
  unfold str in *. rewrite filter_cons. cbn [split_nl].
  destruct (N.eqb_spec c 10) as [->|Hne].
  - rewrite decide_True by done. cbn [length]. by rewrite IH.
  - rewrite decide_False by done. rewrite <- IH.
    destruct (split_nl s); [cbn [length] in IH; lia | done].
Qed.

Lemma split_nl_app (a b : str) :
  length (split_nl (a ++ 10 :: b))
  = (length (split_nl a) + length (split_nl b))%nat.
Proof.
  rewrite !split_nl_count. unfold str in *.
  rewrite filter_app, length_app, filter_cons.
  rewrite decide_True by done. cbn [length]. lia.
Qed.

(** X17. The line count behind the compression threshold. It is one more
    than the number of newline characters of the combined output, so an
    empty output counts as one line and a final newline adds a line; and
    the count of the combined output is the count of stdout alone when
    stderr is empty, and the sum of the two counts otherwise. *)
Theorem combined_line_count (result : ExecutionResult) :
  length (split_nl (fullOutput_of result))
  = S (length (filter (fun c => c = 10) (fullOutput_of result)))
  /\ length (split_nl (fullOutput_of result))
     = if str_eqb (stderr result) [] then length (split_nl (stdout result))
       else (length (split_nl (stdout result))
             + length (split_nl (stderr result)))%nat.
Proof.
  split; [apply split_nl_count|].
  unfold fullOutput_of. destruct (str_eqb (stderr result) []).
  - by rewrite app_nil_r.
  - apply split_nl_app.
Qed.

(** ** Edge cases of the orchestrator and invariants of the stores *)

(** X18. An oracle that answers with nothing but white space (or with
    nothing at all) counts as degenerate: in a compressed invocation the
    reply is then the complete combined output, unchanged, and the error
    flag still follows the exit code. *)
Theorem blank_oracle_answer_falls_back (w : world) (args : shell_args)
    (d d' : disk) (result : ExecutionResult) (printed : str) :
  let fullOutput := fullOutput_of result in
  checkPermission w (command args) (cwd args) d = (Allow, d') ->
  executeCommand w (command args) (cwd args) = Resolved result ->
  shouldCompress (compress args) (command args) (length (split_nl fullOutput))
  = true ->
  oracle w (build_prompt fullOutput (command args) (exitCode result))
  = Printed printed ->
  Forall (fun c => is_space c = true) printed ->
  exists o,
    handleShellTool w args d = Resolved o
    /\ text (reply o) = fullOutput
    /\ isError (reply o) = negb (exitCode result =? 0)%Z.
Proof.
  intros fullOutput Hperm Hexec Hc Horacle Hblank.
  rewrite (handleShellTool_allowed w args d d' result Hperm Hexec).
  fold fullOutput. rewrite Hc. eexists. split; [reflexivity|]. simpl.
  unfold compressWithHaiku. rewrite Horacle.
  apply trim_nil in Hblank. by rewrite Hblank.
Qed.

Lemma blank_oracle_answer_falls_back_witness :
  exists o,
    handleShellTool blank_oracle_world
      {| command := u "ls"; cwd := None; compress := Some (JBool true) |}
      empty_disk = Resolved o
    /\ text (reply o) = u "hello"
    /\ isError (reply o) = false.
Proof.
  apply (blank_oracle_answer_falls_back blank_oracle_world
           {| command := u "ls"; cwd := None; compress := Some (JBool true) |}
           empty_disk empty_disk
           {| exitCode := 0; stdout := u "hello"; stderr := [];
              duration := u "0.01" |}
           [32; 10; 9]).
  - vm_compute. reflexivity.
  - vm_compute. reflexivity.
  - vm_compute. reflexivity.
  - reflexivity.
  - repeat constructor.
Defined.

Lemma effective_once_default (f : file) (items : list json) :
  effective_once f = Some items -> default [] (once_list f) = items.
Proof.
  destruct f as [| t | data]; simpl; try (by intros [= <-]).
  destruct data as [| b | z | s | its | members]; try done.
  simpl.
  destruct (assoc (u "commands") members) as [[| b | z | s | its | ms]|];
    simpl; try (by intros [= <-]); try done.
  - by destruct b; [|intros [= <-]].
  - by destruct (negb (z =? 0)%Z); [|intros [= <-]].
  - by destruct (negb (str_eqb s [])); [|intros [= <-]].
Qed.

Lemma count_snoc (c C : str) (items : list json) :
  length (filter (fun x => is_string c x = true) (items ++ [JStr C]))
  = (length (filter (fun x => is_string c x = true) items)
     + if str_eqb C c then 1 else 0)%nat.
Proof.
  rewrite filter_app, length_app, filter_cons, filter_nil.
  simpl. destruct (str_eqb C c); by rewrite ?decide_True, ?decide_False by done.
Qed.

(** X19. The one-time store stays free of duplicates. If no command is
    recorded more than once, this is still so after [allow_once] (on a
    store a grant can extend) and after any lookup by the shell handler,
    hit or miss. *)
Theorem one_time_store_stays_deduplicated (C : str) (d : disk) :
  (forall c, count_record c (once_store d) <= 1)%nat ->
  (forall r d1,
     is_Some (effective_once (once_store d)) ->
     handleAllowOnceTool C d = Ret (r, d1) ->
     forall c, count_record c (once_store d1) <= 1)%nat
  /\ (forall c, count_record c (snd (isAllowedOnce C (once_store d))) <= 1)%nat.
Proof.
  intros Hdedup. split.
  - intros r d1 [items Hitems] Hgrant c.
    unfold handleAllowOnceTool in Hgrant.
    destruct (is_blank C); [by injection Hgrant as _ <-|].
    pose proof (addAllowOnce_spec (trim C) (once_store d) items Hitems) as Hadd.
    pose proof (effective_once_default _ _ Hitems) as Hdef.
    destruct (includes (trim C) items) eqn:Hin.
    + rewrite Hadd in Hgrant. injection Hgrant as _ <-. apply Hdedup.
    + destruct Hadd as (f' & Hadd & Hf'). rewrite Hadd in Hgrant.
      injection Hgrant as _ <-. simpl.
      unfold count_record. rewrite Hf'. simpl. rewrite count_snoc.
      specialize (Hdedup c). unfold count_record in Hdedup. rewrite Hdef in Hdedup.
      destruct (str_eqb (trim C) c) eqn:Hc; [|lia].
      apply str_eqb_eq in Hc as <-.
      rewrite (filter_includes_false _ _ Hin). simpl. lia.
  - intros c.
    destruct (once_list (once_store d)) as [items|] eqn:Hl.
    + rewrite (isAllowedOnce_list _ _ _ Hl).
      destruct (indexOf C items) as [index|] eqn:Hi; [|apply Hdedup].
      simpl. specialize (Hdedup c). unfold count_record in *.
      rewrite Hl in Hdedup. simpl in *.
      destruct (decide (c = C)) as [->|Hne].
      * pose proof (filter_delete_indexOf C items index Hi). lia.
      * by rewrite (filter_delete_other C c items index).
    + rewrite (isAllowedOnce_malformed _ _ Hl). apply Hdedup.
Qed.

Lemma one_time_store_stays_deduplicated_witness :
  (forall c, count_record c
               (once_store (snd (once_grant_of (u "make build") granted_disk))) <= 1)%nat
  /\ (forall c, count_record c
                  (snd (isAllowedOnce (u "ls") (once_store granted_disk))) <= 1)%nat.
Proof.
  assert (Hdedup : forall c, (count_record c (once_store granted_disk) <= 1)%nat).
  { intros c. unfold count_record. simpl. rewrite filter_cons, filter_nil.
    case_decide; simpl; lia. }
  destruct (one_time_store_stays_deduplicated (u "make build") granted_disk Hdedup)
    as [Hgrant _].
  destruct (one_time_store_stays_deduplicated (u "ls") granted_disk Hdedup)
    as [_ Hlookup].
  split; [|exact Hlookup].
  apply (Hgrant (fst (once_grant_of (u "make build") granted_disk))).
  - by eexists.
  - vm_compute. reflexivity.
Defined.

(** ** Compression Orchestrator: the decision against the specification *)

(** *** First tokens *)






(** *** Operators *)

Lemma operator_length_pipe_eq (s : str) :
  operator_length (124 :: s)
  = match s with
    | c2 :: _ => if c2 =? 124 then Some 2%nat else Some 1%nat
    | [] => Some 1%nat
    end.
Proof.
  destruct s as [|c2 s]; [reflexivity|].
  destruct (N.eqb_spec c2 124) as [->|Hne]; [reflexivity|].
  destruct c2 as [|p]; [reflexivity|].
  do 7 (try (destruct p as [p|p|])); done.
Qed.

Lemma operator_length_amp_eq (s : str) :
  operator_length (38 :: s)
  = match s with
    | c2 :: _ => if c2 =? 38 then Some 2%nat else None
    | [] => None
    end.
Proof.
  destruct s as [|c2 s]; [reflexivity|].
  destruct (N.eqb_spec c2 38) as [->|Hne]; [reflexivity|].
  destruct c2 as [|p]; [reflexivity|].
  do 6 (try (destruct p as [p|p|])); done.
Qed.

(** The alternation of the pattern finds the operators of the
    specification, the two-character ones first. *)
Lemma operator_length_spec (c1 : N) (s1 : str) :
  operator_length (c1 :: s1)
  = match s1 with
    | c2 :: _ =>
        if is_operator2 c1 c2 then Some 2%nat
        else if is_operator1 c1 then Some 1%nat else None
    | [] => if is_operator1 c1 then Some 1%nat else None
    end.
Proof.
  unfold is_operator1, is_operator2.
  destruct (N.eqb_spec c1 59) as [->|H59].
  { rewrite operator_length_semicolon. by destruct s1. }
  destruct (N.eqb_spec c1 124) as [->|H124].
  { rewrite operator_length_pipe_eq. destruct s1 as [|c2 s2]; [done|].
    change (124 =? 38) with false. cbn [andb orb]. by destruct (c2 =? 124). }
  destruct (N.eqb_spec c1 38) as [->|H38].
  { rewrite operator_length_amp_eq. destruct s1 as [|c2 s2]; [done|].
    cbn [andb orb]. rewrite orb_false_r. by destruct (c2 =? 38). }
  rewrite operator_length_plain by done. by destruct s1.
Qed.





(** *** Segments *)

Lemma spec_segments_cons (c1 : N) (s1 : str) :
  spec_segments (c1 :: s1)
  = match operator_length (c1 :: s1) with
    | Some k => [] :: spec_segments (drop k (c1 :: s1))
    | None => spec_extend c1 (spec_segments s1)
    end.
Proof.
  rewrite operator_length_spec. cbn [spec_segments].
  destruct s1 as [|c2 s2].
  - by destruct (is_operator1 c1).
  - destruct (is_operator2 c1 c2); [done|]. by destruct (is_operator1 c1).
Qed.

Lemma spec_segments_nonempty (s : str) :
  exists h t, spec_segments s = h :: t.
Proof.
  destruct s as [|c s]; [by eexists _, _|].
  rewrite spec_segments_cons. destruct (operator_length (c :: s)).
  - by eexists _, _.
  - unfold spec_extend. destruct (spec_segments s); by eexists _, _.
Qed.










